(** * List-group synthesizer of tillywork: a shallow embedding

    Source: packages/backend/src/app/common/lists/list-groups/list.groups.service.ts

    The service is embedded as pure functions over an explicit [Store]
    (the list-group table, the filter table and the ids of the lists that
    exist).  Asynchronous results are [Promise] values with their three
    states, so that a promise that is never resolved is visible in the
    model.  Failures of the persistence layer and of the lookup services
    are chosen by a [Faults] record. *)

From Stdlib Require Import ZArith List String Bool Lia Permutation DecimalString.
From Stdlib Require Import Sorted.
Import ListNotations.
Open Scope string_scope.
Open Scope Z_scope.
Open Scope list_scope.

(** ** Enumerations of ../types and ../../filters/types *)

Module ListGroupOptions.
Inductive t : Type := ALL | LIST_STAGE | ASSIGNEES | DUE_DATE.

Definition eqb (a b : t) : bool :=
  match a, b with
  | ALL, ALL | LIST_STAGE, LIST_STAGE
  | ASSIGNEES, ASSIGNEES | DUE_DATE, DUE_DATE => true
  | _, _ => false
  end.
End ListGroupOptions.

Module ListGroupEntityTypes.
Inductive t : Type := USER | LIST_STAGE.

Definition eqb (a b : t) : bool :=
  match a, b with
  | USER, USER | LIST_STAGE, LIST_STAGE => true
  | _, _ => false
  end.
End ListGroupEntityTypes.

Module ListGroupDueDate.
(** Modelled from the spec: the string values of the enum [ListGroupDueDate]
    of ../types, which the service only names ([PAST_DUE], [TODAY],
    [UPCOMING], [NO_DUE_DATE]). *)
Definition PAST_DUE : string := "Past Due".
Definition TODAY : string := "Today".
Definition UPCOMING : string := "Upcoming".
Definition NO_DUE_DATE : string := "No Due Date".
End ListGroupDueDate.

Module FilterEntityTypes.
(** The service uses [LIST_GROUP] only; [OTHER] stands for the remaining
    members of the enum. *)
Inductive t : Type := LIST_GROUP | OTHER.

Definition eqb (a b : t) : bool :=
  match a, b with
  | LIST_GROUP, LIST_GROUP | OTHER, OTHER => true
  | _, _ => false
  end.
End FilterEntityTypes.

(** ** Filter expressions

    [{ where: { and: [ { field, operator, value } ] } }].  A value is
    [null], a number, a string or an array of strings. *)

Inductive FilterValue : Type :=
| VNull
| VNumber (n : Z)
| VString (s : string)
| VArray (l : list string).

Record FieldFilter : Type := mkFieldFilter {
  field : string;
  operator : string;
  value : FilterValue
}.

Record QueryFilter : Type := mkQueryFilter {
  and_ : list FieldFilter
}.

Record FilterDto : Type := mkFilterDto {
  where_ : QueryFilter
}.

(** ** Entities and DTOs

    An optional property is an [option]: [None] stands for both [null] and
    [undefined], which the loose equality [==] of the reconciliation
    identifies. *)

Module Filter.
Record t : Type := mk {
  id : Z;
  entityId : Z;
  entityType : FilterEntityTypes.t;
  where_ : QueryFilter
}.
End Filter.

Module CreateFilterDto.
Record t : Type := mk {
  entityId : Z;
  entityType : FilterEntityTypes.t;
  where_ : QueryFilter
}.
End CreateFilterDto.

Module CreateListGroupDto.
Record t : Type := mk {
  name : string;
  type : option ListGroupOptions.t;
  entityId : option Z;
  entityType : option ListGroupEntityTypes.t;
  filter : option FilterDto;
  color : option string;
  icon : option string;
  order : option Z;
  isExpanded : option bool;
  listId : option Z
}.
End CreateListGroupDto.

Module ListGroup.
(** [filter] is not a column: it is the property that [findAll] maps from
    the left join, and it is unset on the rows of the table. *)
Record t : Type := mk {
  id : Z;
  name : string;
  type : option ListGroupOptions.t;
  entityId : option Z;
  entityType : option ListGroupEntityTypes.t;
  color : option string;
  icon : option string;
  order : option Z;
  isExpanded : option bool;
  listId : option Z;
  filter : option Filter.t
}.
End ListGroup.

Module ListStage.
Record t : Type := mk {
  id : Z;
  name : string;
  color : string;
  order : Z;
  isCompleted : bool;
  listId : Z
}.
End ListStage.

Module User.
Record t : Type := mk {
  id : Z;
  firstName : string;
  lastName : string;
  photo : option string
}.
End User.

Record GenerateGroupsParams : Type := mkParams {
  p_listId : Z;
  p_ignoreCompleted : bool;
  p_groupBy : option ListGroupOptions.t
}.

(** [const DEFAULT_GROUP = { name: "All", type: ListGroupOptions.ALL }] *)
Definition DEFAULT_GROUP : CreateListGroupDto.t :=
  CreateListGroupDto.mk "All" (Some ListGroupOptions.ALL)
    None None None None None None None None.

(** ** Strategy functions *)

(** The body of the [stages.map] callback of [generateGroupsByListStage]. *)
Definition stageGroup (stage : ListStage.t) : CreateListGroupDto.t :=
  {| CreateListGroupDto.name := ListStage.name stage;
     CreateListGroupDto.type := Some ListGroupOptions.LIST_STAGE;
     CreateListGroupDto.entityId := Some (ListStage.id stage);
     CreateListGroupDto.entityType := Some ListGroupEntityTypes.LIST_STAGE;
     CreateListGroupDto.filter :=
       Some (mkFilterDto (mkQueryFilter
         [ mkFieldFilter "cardLists.listStageId" "eq"
             (VNumber (ListStage.id stage)) ]));
     CreateListGroupDto.color := Some (ListStage.color stage);
     CreateListGroupDto.icon := None;
     CreateListGroupDto.order := Some (ListStage.order stage);
     CreateListGroupDto.isExpanded := None;
     CreateListGroupDto.listId := None |}.

(** [generateGroupsByListStage], given the stages the lookup returned. *)
Definition generateGroupsByListStage (stages : list ListStage.t)
  : list CreateListGroupDto.t :=
  map stageGroup stages.

(** The body of the [users.map] callback of [generateGroupsByAssignees]. *)
Definition userGroup (user : User.t) (index : nat) : CreateListGroupDto.t :=
  {| CreateListGroupDto.name :=
       (User.firstName user ++ " " ++ User.lastName user)%string;
     CreateListGroupDto.type := Some ListGroupOptions.ASSIGNEES;
     CreateListGroupDto.entityId := Some (User.id user);
     CreateListGroupDto.entityType := Some ListGroupEntityTypes.USER;
     CreateListGroupDto.filter :=
       Some (mkFilterDto (mkQueryFilter
         [ mkFieldFilter "users.id" "eq" (VNumber (User.id user)) ]));
     CreateListGroupDto.color := None;
     CreateListGroupDto.icon := User.photo user;
     CreateListGroupDto.order := Some (Z.of_nat index + 1);
     CreateListGroupDto.isExpanded := None;
     CreateListGroupDto.listId := None |}.

(** [Array.prototype.map] with the element's index, from index [from]. *)
Fixpoint mapWithIndex {A B : Type} (f : A -> nat -> B) (from : nat)
  (l : list A) : list B :=
  match l with
  | [] => []
  | x :: rest => f x from :: mapWithIndex f (S from) rest
  end.

(** The descriptor pushed after the users. *)
Definition NO_ASSIGNEE : CreateListGroupDto.t :=
  {| CreateListGroupDto.name := "No Assignee";
     CreateListGroupDto.type := Some ListGroupOptions.ASSIGNEES;
     CreateListGroupDto.entityId := None;
     CreateListGroupDto.entityType := None;
     CreateListGroupDto.filter :=
       Some (mkFilterDto (mkQueryFilter
         [ mkFieldFilter "users.id" "isNull" VNull ]));
     CreateListGroupDto.color := None;
     CreateListGroupDto.icon := None;
     CreateListGroupDto.order := None;
     CreateListGroupDto.isExpanded := None;
     CreateListGroupDto.listId := None |}.

(** [generateGroupsByAssignees], given the users the lookup returned:
    [users.map(...)] followed by [groups.push(...)]. *)
Definition generateGroupsByAssignees (users : list User.t)
  : list CreateListGroupDto.t :=
  let groups := mapWithIndex userGroup 0%nat users in
  groups ++ [NO_ASSIGNEE].

Definition dueDateGroup (name : string) (operator : string)
  (value : FilterValue) (icon color : string) (order : Z)
  : CreateListGroupDto.t :=
  {| CreateListGroupDto.name := name;
     CreateListGroupDto.type := Some ListGroupOptions.DUE_DATE;
     CreateListGroupDto.entityId := None;
     CreateListGroupDto.entityType := None;
     CreateListGroupDto.filter :=
       Some (mkFilterDto (mkQueryFilter
         [ mkFieldFilter "card.dueAt" operator value ]));
     CreateListGroupDto.color := Some color;
     CreateListGroupDto.icon := Some icon;
     CreateListGroupDto.order := Some order;
     CreateListGroupDto.isExpanded := None;
     CreateListGroupDto.listId := None |}.

(** [generateGroupsByDueDate]: it takes no argument and reads nothing. *)
Definition generateGroupsByDueDate : list CreateListGroupDto.t :=
  [ dueDateGroup ListGroupDueDate.PAST_DUE "lt" (VString ":startOfDay")
      "mdi-clock-time-eight" "error" 1;
    dueDateGroup ListGroupDueDate.TODAY "between"
      (VArray [":startOfDay"; ":endOfDay"])
      "mdi-clock-time-twelve" "info" 2;
    dueDateGroup ListGroupDueDate.UPCOMING "gt" (VString ":endOfDay")
      "mdi-clock-time-four" "default" 3;
    dueDateGroup ListGroupDueDate.NO_DUE_DATE "isNull" VNull
      "mdi-clock-time-six-outline" "default" 4 ].

(** ** The store and the collaborators *)

(** The persistent state the service reads and writes: the ids of the
    lists that exist, the list-group table and the filter table, each
    table with the next generated primary key. *)
Record Store : Type := mkStore {
  lists : list Z;
  listGroups : list ListGroup.t;
  nextListGroupId : Z;
  filters : list Filter.t;
  nextFilterId : Z
}.

(** Modelled from the spec: the lookup services, which are not part of the
    service file.  [stageTable] holds the pipeline stages in the order the
    stage lookup returns them; [usersOfList] gives the users the user
    lookup resolves for a list, in lookup order. *)
Record World : Type := mkWorld {
  stageTable : list ListStage.t;
  usersOfList : Z -> list User.t
}.

Inductive Exception : Type :=
| NotFoundException (message : string)
| PersistenceError.

(** The state of a promise.  An [async] function returns a promise as
    well: [Fulfilled] when it returns, [Rejected] when it throws, and
    [Pending] when it awaits a promise that never settles. *)
Inductive Promise (A : Type) : Type :=
| Pending
| Fulfilled (a : A)
| Rejected (e : Exception).

Arguments Pending {A}.
Arguments Fulfilled {A} a.
Arguments Rejected {A} e.

(** Which calls to the store and to the lookup services reject during one
    run of [generateGroups].  [groupSaveFails k] and [filterSaveFails k]
    are about the descriptor at index [k] of the fan-out. *)
Record Faults : Type := mkFaults {
  initialFetchFails : bool;
  stageLookupFails : bool;
  userLookupFails : bool;
  groupSaveFails : nat -> bool;
  filterSaveFails : nat -> bool;
  finalFetchFails : bool;
  openStageLookupFails : bool
}.

Definition noFaults : Faults :=
  mkFaults false false false (fun _ => false) (fun _ => false) false false.

(** A call to a collaborator: it rejects when [fails], and otherwise
    fulfils with [a]. *)
Definition call {A : Type} (fails : bool) (a : A) : Promise A :=
  if fails then Rejected PersistenceError else Fulfilled a.

(** [await p] inside an [async] function that is in store [s]: the rest of
    the function runs on the value of a fulfilled [p]; a rejected [p]
    throws; a pending [p] never resumes. *)
Definition await {A B : Type} (s : Store) (p : Promise A)
  (k : A -> Store * Promise B) : Store * Promise B :=
  match p with
  | Fulfilled a => k a
  | Rejected e => (s, Rejected e)
  | Pending => (s, Pending)
  end.

(** ** Repository operations *)

(** [this.listGroupsRepository.create(dto)]: the entity with the DTO's
    column properties, not yet saved. *)
Definition newListGroup (id : Z) (dto : CreateListGroupDto.t) : ListGroup.t :=
  {| ListGroup.id := id;
     ListGroup.name := CreateListGroupDto.name dto;
     ListGroup.type := CreateListGroupDto.type dto;
     ListGroup.entityId := CreateListGroupDto.entityId dto;
     ListGroup.entityType := CreateListGroupDto.entityType dto;
     ListGroup.color := CreateListGroupDto.color dto;
     ListGroup.icon := CreateListGroupDto.icon dto;
     ListGroup.order := CreateListGroupDto.order dto;
     ListGroup.isExpanded := CreateListGroupDto.isExpanded dto;
     ListGroup.listId := CreateListGroupDto.listId dto;
     ListGroup.filter := None |}.

(** [create]: build the entity, save it (an insert, with the next primary
    key) and return it.  When the save rejects, nothing is inserted. *)
Definition create (fails : bool) (s : Store) (dto : CreateListGroupDto.t)
  : Store * Promise ListGroup.t :=
  if fails then (s, Rejected PersistenceError)
  else
    let listGroup := newListGroup (nextListGroupId s) dto in
    ({| lists := lists s;
        listGroups := listGroups s ++ [listGroup];
        nextListGroupId := nextListGroupId s + 1;
        filters := filters s;
        nextFilterId := nextFilterId s |},
     Fulfilled listGroup).

(** [this.filtersService.create]: insert a filter row. *)
Definition filtersService_create (fails : bool) (s : Store)
  (dto : CreateFilterDto.t) : Store * Promise Filter.t :=
  if fails then (s, Rejected PersistenceError)
  else
    let f := Filter.mk (nextFilterId s) (CreateFilterDto.entityId dto)
               (CreateFilterDto.entityType dto) (CreateFilterDto.where_ dto) in
    ({| lists := lists s;
        listGroups := listGroups s;
        nextListGroupId := nextListGroupId s;
        filters := filters s ++ [f];
        nextFilterId := nextFilterId s + 1 |},
     Fulfilled f).

Definition optEqb {A : Type} (eqb : A -> A -> bool) (a b : option A) : bool :=
  match a, b with
  | Some x, Some y => eqb x y
  | None, None => true
  | _, _ => false
  end.

(** [ORDER BY listGroup.order ASC]: ascending, rows without an order last,
    rows with equal order in table order. *)
Definition orderLeb (a b : option Z) : bool :=
  match a, b with
  | Some x, Some y => x <=? y
  | Some _, None => true
  | None, Some _ => false
  | None, None => true
  end.

Fixpoint insertByOrder (g : ListGroup.t) (l : list ListGroup.t)
  : list ListGroup.t :=
  match l with
  | [] => [g]
  | h :: rest =>
      if orderLeb (ListGroup.order g) (ListGroup.order h) then g :: l
      else h :: insertByOrder g rest
  end.

Fixpoint orderBy (l : list ListGroup.t) : list ListGroup.t :=
  match l with
  | [] => []
  | h :: rest => insertByOrder h (orderBy rest)
  end.

(** The [WHERE] clause of [findAll], with the inner join on the owning
    list: [listGroup.listId = :listId], the list exists, and, when
    [groupBy] is truthy, [listGroup.type = :groupBy]. *)
Definition selected (s : Store) (listId : Z)
  (groupBy : option ListGroupOptions.t) (g : ListGroup.t) : bool :=
  optEqb Z.eqb (ListGroup.listId g) (Some listId)
  && existsb (Z.eqb listId) (lists s)
  && match groupBy with
     | Some t => optEqb ListGroupOptions.eqb (ListGroup.type g) (Some t)
     | None => true
     end.

(** [leftJoinAndMapOne("listGroup.filter", Filter, ...)]: the property
    [filter] is the filter row owned by the group, if there is one. *)
Definition ownedBy (g : ListGroup.t) (f : Filter.t) : bool :=
  (Filter.entityId f =? ListGroup.id g)
  && FilterEntityTypes.eqb (Filter.entityType f) FilterEntityTypes.LIST_GROUP.

Definition withFilter (s : Store) (g : ListGroup.t) : ListGroup.t :=
  {| ListGroup.id := ListGroup.id g;
     ListGroup.name := ListGroup.name g;
     ListGroup.type := ListGroup.type g;
     ListGroup.entityId := ListGroup.entityId g;
     ListGroup.entityType := ListGroup.entityType g;
     ListGroup.color := ListGroup.color g;
     ListGroup.icon := ListGroup.icon g;
     ListGroup.order := ListGroup.order g;
     ListGroup.isExpanded := ListGroup.isExpanded g;
     ListGroup.listId := ListGroup.listId g;
     ListGroup.filter := find (ownedBy g) (filters s) |}.

(** The rows [findAll] selects, ordered, before the filter is mapped. *)
Definition selectedRows (s : Store) (listId : Z)
  (groupBy : option ListGroupOptions.t) : list ListGroup.t :=
  orderBy (List.filter (selected s listId groupBy) (listGroups s)).

(** The result of the query of [findAll]. *)
Definition queryGroups (s : Store) (listId : Z)
  (groupBy : option ListGroupOptions.t) : list ListGroup.t :=
  map (withFilter s) (selectedRows s listId groupBy).

Definition findAll (fails : bool) (s : Store) (listId : Z)
  (groupBy : option ListGroupOptions.t) : Promise (list ListGroup.t) :=
  call fails (queryGroups s listId groupBy).

(** ** Group generation *)

(** The predicate of [existingGroups.find]: loose equality on the source
    entity id and type, and on the name. *)
Definition sameKey (generatedGroup : CreateListGroupDto.t)
  (group : ListGroup.t) : bool :=
  optEqb Z.eqb (ListGroup.entityId group)
    (CreateListGroupDto.entityId generatedGroup)
  && optEqb ListGroupEntityTypes.eqb (ListGroup.entityType group)
       (CreateListGroupDto.entityType generatedGroup)
  && String.eqb (ListGroup.name group) (CreateListGroupDto.name generatedGroup).

(** [{ ...generatedGroup, isExpanded: true, type: groupBy, listId }] *)
Definition creationDto (generatedGroup : CreateListGroupDto.t)
  (groupBy : option ListGroupOptions.t) (listId : Z) : CreateListGroupDto.t :=
  {| CreateListGroupDto.name := CreateListGroupDto.name generatedGroup;
     CreateListGroupDto.type := groupBy;
     CreateListGroupDto.entityId := CreateListGroupDto.entityId generatedGroup;
     CreateListGroupDto.entityType :=
       CreateListGroupDto.entityType generatedGroup;
     CreateListGroupDto.filter := CreateListGroupDto.filter generatedGroup;
     CreateListGroupDto.color := CreateListGroupDto.color generatedGroup;
     CreateListGroupDto.icon := CreateListGroupDto.icon generatedGroup;
     CreateListGroupDto.order := CreateListGroupDto.order generatedGroup;
     CreateListGroupDto.isExpanded := Some true;
     CreateListGroupDto.listId := Some listId |}.

Record Reconciled : Type := mkReconciled {
  exists_ : bool;
  group : ListGroup.t
}.

(** The executor of the promise built for the descriptor at index [k].
    [resolve] is called when a match is found, or from the [then]
    callbacks after the creations; the executor never calls a [reject],
    and a rejected [this.create] or [filtersService.create] has no
    handler: the promise then stays pending. *)
Definition checkIfGroupExists (F : Faults) (existingGroups : list ListGroup.t)
  (groupBy : option ListGroupOptions.t) (listId : Z) (k : nat)
  (generatedGroup : CreateListGroupDto.t) (s : Store)
  : Store * Promise Reconciled :=
  match find (sameKey generatedGroup) existingGroups with
  | Some check => (s, Fulfilled (mkReconciled true check))
  | None =>
      match create (groupSaveFails F k) s
              (creationDto generatedGroup groupBy listId) with
      | (s1, Fulfilled group) =>
          match CreateListGroupDto.filter generatedGroup with
          | Some f =>
              match filtersService_create (filterSaveFails F k) s1
                      (CreateFilterDto.mk (ListGroup.id group)
                         FilterEntityTypes.LIST_GROUP (where_ f)) with
              | (s2, Fulfilled _) => (s2, Fulfilled (mkReconciled false group))
              | (s2, _) => (s2, Pending)
              end
          | None => (s1, Fulfilled (mkReconciled false group))
          end
      | (s1, _) => (s1, Pending)
      end
  end.

(** [cardGroups.map(...)]: one promise per descriptor, the creations being
    issued in descriptor order. *)
Fixpoint fanOut (F : Faults) (existingGroups : list ListGroup.t)
  (groupBy : option ListGroupOptions.t) (listId : Z) (k : nat)
  (cardGroups : list CreateListGroupDto.t) (s : Store)
  : Store * list (Promise Reconciled) :=
  match cardGroups with
  | [] => (s, [])
  | generatedGroup :: rest =>
      let '(s1, p) :=
        checkIfGroupExists F existingGroups groupBy listId k generatedGroup s in
      let '(s2, ps) := fanOut F existingGroups groupBy listId (S k) rest s1 in
      (s2, p :: ps)
  end.

Definition isPending {A : Type} (p : Promise A) : bool :=
  match p with
  | Pending => true
  | _ => false
  end.

(** [Promise.allSettled]: fulfilled once every promise has settled. *)
Definition allSettled {A : Type} (ps : list (Promise A))
  : Promise (list (Promise A)) :=
  if existsb isPending ps then Pending else Fulfilled ps.

(** Modelled from the spec: [listStagesService.findAll({ listId })], the
    stages of the list in lookup order. *)
Definition listStagesService_findAll (W : World) (listId : Z)
  : list ListStage.t :=
  List.filter (fun stage => ListStage.listId stage =? listId) (stageTable W).

(** Modelled from the spec: [listStagesService.findBy({ where: { listId,
    isCompleted } })]. *)
Definition listStagesService_findBy (W : World) (listId : Z)
  (isCompleted : bool) : list ListStage.t :=
  List.filter
    (fun stage =>
       (ListStage.listId stage =? listId)
       && Bool.eqb (ListStage.isCompleted stage) isCompleted)
    (stageTable W).

(** The [switch (groupBy)] of [generateGroups]. *)
Definition desiredGroups (W : World) (F : Faults) (listId : Z)
  (groupBy : option ListGroupOptions.t) : Promise (list CreateListGroupDto.t) :=
  match groupBy with
  | Some ListGroupOptions.LIST_STAGE =>
      call (stageLookupFails F)
        (generateGroupsByListStage (listStagesService_findAll W listId))
  | Some ListGroupOptions.ASSIGNEES =>
      call (userLookupFails F)
        (generateGroupsByAssignees (usersOfList W listId))
  | Some ListGroupOptions.DUE_DATE => Fulfilled generateGroupsByDueDate
  | _ => Fulfilled [DEFAULT_GROUP]
  end.

Definition isListStage (groupBy : option ListGroupOptions.t) : bool :=
  optEqb ListGroupOptions.eqb groupBy (Some ListGroupOptions.LIST_STAGE).

(** [listStages.map((listStage) => listStage.name).includes(group.name)] *)
Definition namedAfter (listStages : list ListStage.t) (group : ListGroup.t)
  : bool :=
  existsb (String.eqb (ListGroup.name group)) (map ListStage.name listStages).

Definition generateGroups (W : World) (F : Faults) (s : Store)
  (params : GenerateGroupsParams) : Store * Promise (list ListGroup.t) :=
  let listId := p_listId params in
  let ignoreCompleted := p_ignoreCompleted params in
  let groupBy := p_groupBy params in
  await s (findAll (initialFetchFails F) s listId groupBy)
    (fun existingGroups =>
  await s (desiredGroups W F listId groupBy)
    (fun cardGroups =>
  let '(s1, checkIfGroupsExist) :=
    fanOut F existingGroups groupBy listId 0%nat cardGroups s in
  await s1 (allSettled checkIfGroupsExist)
    (fun _ =>
  await s1 (findAll (finalFetchFails F) s1 listId groupBy)
    (fun finalGroups =>
  if isListStage groupBy && ignoreCompleted then
    await s1
      (call (openStageLookupFails F) (listStagesService_findBy W listId false))
      (fun listStages =>
         (s1, Fulfilled (List.filter (namedAfter listStages) finalGroups)))
  else (s1, Fulfilled finalGroups))))).

(** ** Single-group fetch and update *)

Definition notFoundMessage (id : Z) : string :=
  ("List Group with ID " ++ NilZero.string_of_int (Z.to_int id)
   ++ " not found")%string.

(** [listGroupsRepository.findOne({ where: { id } })]: the row or [null]. *)
Definition repository_findOne (s : Store) (id : Z) : option ListGroup.t :=
  find (fun g => ListGroup.id g =? id) (listGroups s).

Definition findOne (s : Store) (id : Z) : Promise ListGroup.t :=
  match repository_findOne s id with
  | Some listGroup => Fulfilled listGroup
  | None => Rejected (NotFoundException (notFoundMessage id))
  end.

(** The patch of [update]: every property optional; [None] is a property
    the patch does not carry.  A nullable property that the patch carries
    has the value [Some None] when the patch sets it to [null]. *)
Module UpdateListGroupDto.
Record t : Type := mk {
  name : option string;
  type : option (option ListGroupOptions.t);
  entityId : option (option Z);
  entityType : option (option ListGroupEntityTypes.t);
  color : option (option string);
  icon : option (option string);
  order : option (option Z);
  isExpanded : option (option bool);
  listId : option (option Z)
}.
End UpdateListGroupDto.

Definition orElse {A : Type} (patch : option A) (prior : A) : A :=
  match patch with
  | Some v => v
  | None => prior
  end.

(** [listGroupsRepository.merge(listGroup, dto)]: the properties the patch
    carries overwrite the entity's. *)
Definition merge (g : ListGroup.t) (dto : UpdateListGroupDto.t) : ListGroup.t :=
  {| ListGroup.id := ListGroup.id g;
     ListGroup.name := orElse (UpdateListGroupDto.name dto) (ListGroup.name g);
     ListGroup.type := orElse (UpdateListGroupDto.type dto) (ListGroup.type g);
     ListGroup.entityId :=
       orElse (UpdateListGroupDto.entityId dto) (ListGroup.entityId g);
     ListGroup.entityType :=
       orElse (UpdateListGroupDto.entityType dto) (ListGroup.entityType g);
     ListGroup.color :=
       orElse (UpdateListGroupDto.color dto) (ListGroup.color g);
     ListGroup.icon := orElse (UpdateListGroupDto.icon dto) (ListGroup.icon g);
     ListGroup.order :=
       orElse (UpdateListGroupDto.order dto) (ListGroup.order g);
     ListGroup.isExpanded :=
       orElse (UpdateListGroupDto.isExpanded dto) (ListGroup.isExpanded g);
     ListGroup.listId :=
       orElse (UpdateListGroupDto.listId dto) (ListGroup.listId g);
     ListGroup.filter := ListGroup.filter g |}.

(** [listGroupsRepository.save] of an entity that has a primary key: the
    row with that key is overwritten. *)
Definition repository_save (s : Store) (g : ListGroup.t) : Store :=
  {| lists := lists s;
     listGroups :=
       map (fun row => if ListGroup.id row =? ListGroup.id g then g else row)
         (listGroups s);
     nextListGroupId := nextListGroupId s;
     filters := filters s;
     nextFilterId := nextFilterId s |}.

Definition update (s : Store) (id : Z) (updateListGroupDto : UpdateListGroupDto.t)
  : Store * Promise ListGroup.t :=
  await s (findOne s id)
    (fun listGroup =>
       let merged := merge listGroup updateListGroupDto in
       (repository_save s merged, Fulfilled merged)).

(** ** Readings of a descriptor used in the statements *)

(** The leaf conditions of a descriptor's filter, as (field, operator,
    value) triples; [None] when the descriptor carries no filter. *)
Definition conditions (d : CreateListGroupDto.t)
  : option (list (string * string * FilterValue)) :=
  match CreateListGroupDto.filter d with
  | Some f => Some (map (fun c => (field c, operator c, value c))
                      (and_ (where_ f)))
  | None => None
  end.

(** The value a run of [generateGroups] that ends in store [s1] returns,
    when it returns: the final fetch, filtered or not. *)
Definition returned (W : World) (s1 : Store) (params : GenerateGroupsParams)
  : list ListGroup.t :=
  if isListStage (p_groupBy params) && p_ignoreCompleted params
  then List.filter
         (namedAfter (listStagesService_findBy W (p_listId params) false))
         (queryGroups s1 (p_listId params) (p_groupBy params))
  else queryGroups s1 (p_listId params) (p_groupBy params).

(** What a patch does to one property. *)
Definition mergedField {A : Type} (patch : option A) (prior merged : A) : Prop :=
  match patch with
  | Some v => merged = v
  | None => merged = prior
  end.

(** ** Sample inputs

    The list of the spec's example: list 7 with the stages Todo, Doing and
    Done, the last one completed, and no list group yet. *)
Definition boardWorld : World :=
  mkWorld
    [ ListStage.mk 1 "Todo" "grey" 1 false 7;
      ListStage.mk 2 "Doing" "blue" 2 false 7;
      ListStage.mk 3 "Done" "green" 3 true 7 ]
    (fun _ => []).

Definition boardStore : Store := mkStore [7] [] 1 [] 1.

Definition byStage (ignoreCompleted : bool) : GenerateGroupsParams :=
  mkParams 7 ignoreCompleted (Some ListGroupOptions.LIST_STAGE).

(** The save of the second descriptor's list group rejects. *)
Definition secondSaveFails : Faults :=
  mkFaults false false false (fun k => Nat.eqb k 1) (fun _ => false)
    false false.

(** A list with an open and a completed stage of the same name. *)
Definition reviewWorld : World :=
  mkWorld
    [ ListStage.mk 1 "Review" "grey" 1 false 7;
      ListStage.mk 2 "Review" "green" 2 true 7 ]
    (fun _ => []).

(** A store in which list 7 has one list group of each strategy. *)
Definition mixedStore : Store :=
  mkStore [7]
    [ ListGroup.mk 1 "Todo" (Some ListGroupOptions.LIST_STAGE) (Some 1)
        (Some ListGroupEntityTypes.LIST_STAGE) (Some "grey") None (Some 1)
        (Some true) (Some 7) None;
      ListGroup.mk 2 "No Assignee" (Some ListGroupOptions.ASSIGNEES) None None
        None None None (Some true) (Some 7) None;
      ListGroup.mk 3 "Today" (Some ListGroupOptions.DUE_DATE) None None
        (Some "info") (Some "mdi-clock-time-twelve") (Some 2) (Some true)
        (Some 7) None ]
    4 [] 1.

(** ** Well-formed stores *)

Definition isListGroupFilter (f : Filter.t) : bool :=
  FilterEntityTypes.eqb (Filter.entityType f) FilterEntityTypes.LIST_GROUP.

(** What generated primary keys and the rows the service writes give:
    the list-group ids are unique and below the next generated id, every
    filter of a list group has its group in the table, and no list group
    owns two filters. *)
Record wfStore (s : Store) : Prop := mkWfStore {
  wf_ids_unique : NoDup (map ListGroup.id (listGroups s));
  wf_ids_below :
    forall g, In g (listGroups s) -> ListGroup.id g < nextListGroupId s;
  wf_filter_owner :
    forall f, In f (filters s) -> isListGroupFilter f = true ->
      exists g, In g (listGroups s) /\ ListGroup.id g = Filter.entityId f;
  wf_filter_unique :
    NoDup (map Filter.entityId (List.filter isListGroupFilter (filters s)))
}.

(** [a] may come before [b] in a result ordered by [order]. *)
Definition ascending (a b : ListGroup.t) : Prop :=
  orderLeb (ListGroup.order a) (ListGroup.order b) = true.

(** A patch that carries no property. *)
Definition emptyPatch : UpdateListGroupDto.t :=
  UpdateListGroupDto.mk None None None None None None None None None.

(** Two fault records that agree on everything up to and including the
    fan-out; they may differ on the final fetch and on the lookup of the
    non-completed stages. *)
Definition sameCreationFaults (F F' : Faults) : Prop :=
  initialFetchFails F = initialFetchFails F'
  /\ stageLookupFails F = stageLookupFails F'
  /\ userLookupFails F = userLookupFails F'
  /\ (forall k, groupSaveFails F k = groupSaveFails F' k)
  /\ (forall k, filterSaveFails F k = filterSaveFails F' k).


(** ** The card view: [updateFieldValue]

    From the card component of the frontend.  [JsValue] stands for the
    values of JavaScript, [truthy x] for [!!x] and [undefined] for the
    value [undefined]; [CardRest] stands for the properties of a card
    other than [data]. *)

Section CardFieldValue.

Variable JsValue : Type.
Variable truthy : JsValue -> bool.
Variable undefined : JsValue.
Variable CardRest : Type.

(** The argument [v] and the values of [data]: an array, or a value for
    which [Array.isArray] is false. *)
Inductive FieldValue : Type :=
| FieldArray (items : list JsValue)
| FieldOther (x : JsValue).

(** [cardCopy.data] is read as [data[id]]: a key it does not have reads
    [undefined]. *)
Record Card : Type := mkCard {
  card_data : Z -> FieldValue;
  card_rest : CardRest
}.

(** [Array.isArray(v) ? (v.length && !!v[0] ? v : undefined) : v] *)
Definition storedFieldValue (v : FieldValue) : FieldValue :=
  match v with
  | FieldArray [] => FieldOther undefined
  | FieldArray (first :: _) =>
      if truthy first then v else FieldOther undefined
  | FieldOther _ => v
  end.

(** [updateFieldValue({ field, v })]: the new [cardCopy], which is also
    the argument of [updateCard]. *)
Definition updateFieldValue (cardCopy : Card) (fieldId : Z) (v : FieldValue)
  : Card :=
  {| card_data :=
       fun id => if id =? fieldId then storedFieldValue v
                 else card_data cardCopy id;
     card_rest := card_rest cardCopy |}.

End CardFieldValue.

Arguments FieldArray {JsValue} items.
Arguments FieldOther {JsValue} x.
Arguments card_data {JsValue CardRest} c id.
Arguments card_rest {JsValue CardRest} c.
Arguments mkCard {JsValue CardRest} card_data card_rest.
Arguments storedFieldValue {JsValue} truthy undefined v.
Arguments updateFieldValue {JsValue} truthy undefined {CardRest}
  cardCopy fieldId v.

(** * Properties *)

(** ** Basic facts *)

Lemma ListGroupOptions_eqb_refl (a : ListGroupOptions.t) :
  ListGroupOptions.eqb a a = true.
Proof. now destruct a. Qed.

Lemma ListGroupOptions_eqb_eq (a b : ListGroupOptions.t) :
  ListGroupOptions.eqb a b = true <-> a = b.
Proof. destruct a, b; simpl; split; intro H; congruence. Qed.

Lemma find_all_false {A : Type} (p : A -> bool) (l : list A) :
  (forall x, In x l -> p x = false) -> find p l = None.
Proof.
  induction l as [|a l IH]; intro H; simpl; [reflexivity|].
  rewrite (H a (or_introl eq_refl)). apply IH.
  intros x Hx. apply H. now right.
Qed.

Lemma find_exists {A : Type} (p : A -> bool) (l : list A) (x : A) :
  In x l -> p x = true -> exists y, find p l = Some y.
Proof.
  intros Hin Hp. destruct (find p l) as [y|] eqn:E; [now exists y|].
  now rewrite (find_none _ _ E x Hin) in Hp.
Qed.

Lemma find_app_some {A : Type} (p : A -> bool) (l l' : list A) (x : A) :
  find p l = Some x -> find p (l ++ l') = Some x.
Proof.
  induction l as [|a l IH]; simpl; [discriminate|].
  destruct (p a); [trivial | exact IH].
Qed.

Lemma find_unique_id (l : list ListGroup.t) (g : ListGroup.t) :
  NoDup (map ListGroup.id l) -> In g l ->
  find (fun row => ListGroup.id row =? ListGroup.id g) l = Some g.
Proof.
  induction l as [|a l IH]; intros Hnd Hin; [contradiction|].
  simpl in *. inversion Hnd as [|? ? Hnotin Hnd']; subst.
  destruct Hin as [-> | Hin].
  - now rewrite Z.eqb_refl.
  - destruct (ListGroup.id a =? ListGroup.id g) eqn:E.
    + apply Z.eqb_eq in E. exfalso. apply Hnotin. rewrite E.
      now apply in_map.
    + now apply IH.
Qed.

(** ** Strategy functions *)

Lemma mapWithIndex_combine {A B : Type} (f : A -> nat -> B) (l : list A) :
  forall from,
    mapWithIndex f from l
    = map (fun ui => f (fst ui) (snd ui)) (combine l (seq from (List.length l))).
Proof.
  induction l as [|x l IH]; intro from; simpl; [reflexivity|].
  now rewrite IH.
Qed.

Lemma mapWithIndex_length {A B : Type} (f : A -> nat -> B) (l : list A) :
  forall from, List.length (mapWithIndex f from l) = List.length l.
Proof.
  induction l as [|x l IH]; intro from; simpl; [reflexivity|].
  now rewrite IH.
Qed.

(** C3: the due-date strategy yields, whatever the world, the faults and
    the list, exactly four descriptors, in the order Past Due (less-than
    the start-of-day placeholder, order 1), Today (between the start- and
    end-of-day placeholders, order 2), Upcoming (greater-than the
    end-of-day placeholder, order 3), No Due Date (is-null, order 4), none
    of them with a source-entity id or type. *)
Theorem generateGroupsByDueDate_fixed :
  forall (W : World) (F : Faults) (listId : Z),
    desiredGroups W F listId (Some ListGroupOptions.DUE_DATE)
    = Fulfilled generateGroupsByDueDate
    /\ List.length generateGroupsByDueDate = 4%nat
    /\ map (fun d => (CreateListGroupDto.name d, conditions d,
                      CreateListGroupDto.order d,
                      CreateListGroupDto.entityId d,
                      CreateListGroupDto.entityType d))
         generateGroupsByDueDate
       = [ ("Past Due", Some [("card.dueAt", "lt", VString ":startOfDay")],
            Some 1, None, None);
           ("Today",
            Some [("card.dueAt", "between",
                   VArray [":startOfDay"; ":endOfDay"])],
            Some 2, None, None);
           ("Upcoming", Some [("card.dueAt", "gt", VString ":endOfDay")],
            Some 3, None, None);
           ("No Due Date", Some [("card.dueAt", "isNull", VNull)],
            Some 4, None, None) ].
Proof.
  intros W F listId. repeat split.
Qed.

(** C4: the stage strategy yields one descriptor per stage, in the order of
    the stages it is given, each with the stage's id as source entity of
    type LIST_STAGE, the strategy tag LIST_STAGE, the stage's name, color
    and order, and a filter with the single condition
    [cardLists.listStageId eq <stage id>]; when the lookup does not fail
    these are the stages of the list in lookup order. *)
Theorem generateGroupsByListStage_per_stage :
  forall (W : World) (listId : Z) (stages : list ListStage.t),
    desiredGroups W noFaults listId (Some ListGroupOptions.LIST_STAGE)
    = Fulfilled
        (generateGroupsByListStage (listStagesService_findAll W listId))
    /\ List.length (generateGroupsByListStage stages) = List.length stages
    /\ map (fun d => (CreateListGroupDto.entityId d,
                      CreateListGroupDto.entityType d,
                      CreateListGroupDto.type d,
                      CreateListGroupDto.name d,
                      CreateListGroupDto.color d,
                      CreateListGroupDto.order d,
                      conditions d))
         (generateGroupsByListStage stages)
       = map (fun stage =>
                (Some (ListStage.id stage),
                 Some ListGroupEntityTypes.LIST_STAGE,
                 Some ListGroupOptions.LIST_STAGE,
                 ListStage.name stage,
                 Some (ListStage.color stage),
                 Some (ListStage.order stage),
                 Some [("cardLists.listStageId", "eq",
                        VNumber (ListStage.id stage))]))
           stages.
Proof.
  intros W listId stages. split; [reflexivity|]. split.
  - unfold generateGroupsByListStage. apply length_map.
  - unfold generateGroupsByListStage. rewrite map_map. reflexivity.
Qed.

(** C5: the assignee strategy yields one descriptor per user, in lookup
    order, named "<firstName> <lastName>", with the user's photo as icon,
    order = index + 1 and the condition [users.id eq <user id>], followed
    by exactly one sentinel: no source-entity id or type, name
    "No Assignee", no order, condition [users.id isNull]; with no user the
    result is the sentinel alone; when the lookup does not fail the users
    are those it resolves for the list. *)
Theorem generateGroupsByAssignees_users_then_sentinel :
  forall (W : World) (listId : Z) (users : list User.t),
    desiredGroups W noFaults listId (Some ListGroupOptions.ASSIGNEES)
    = Fulfilled (generateGroupsByAssignees (usersOfList W listId))
    /\ List.length (generateGroupsByAssignees users) = S (List.length users)
    /\ map (fun d => (CreateListGroupDto.entityId d,
                      CreateListGroupDto.entityType d,
                      CreateListGroupDto.name d,
                      CreateListGroupDto.icon d,
                      CreateListGroupDto.order d,
                      conditions d))
         (generateGroupsByAssignees users)
       = map (fun ui =>
                (Some (User.id (fst ui)),
                 Some ListGroupEntityTypes.USER,
                 (User.firstName (fst ui) ++ " "
                  ++ User.lastName (fst ui))%string,
                 User.photo (fst ui),
                 Some (Z.of_nat (snd ui) + 1),
                 Some [("users.id", "eq", VNumber (User.id (fst ui)))]))
           (combine users (seq 0 (List.length users)))
         ++ [ (None, None, "No Assignee", None, None,
               Some [("users.id", "isNull", VNull)]) ]
    /\ generateGroupsByAssignees [] = [NO_ASSIGNEE].
Proof.
  intros W listId users. split; [reflexivity|].
  unfold generateGroupsByAssignees. repeat split.
  - rewrite length_app, mapWithIndex_length. simpl. lia.
  - rewrite map_app, mapWithIndex_combine, map_map. reflexivity.
Qed.

(** ** Single-group fetch and update *)

Lemma repository_findOne_id (s : Store) (id : Z) (g : ListGroup.t) :
  repository_findOne s id = Some g ->
  In g (listGroups s) /\ ListGroup.id g = id.
Proof.
  unfold repository_findOne. intro H. apply find_some in H.
  destruct H as [Hin Hid]. split; [exact Hin | now apply Z.eqb_eq].
Qed.

Lemma repository_findOne_none (s : Store) (id : Z) :
  repository_findOne s id = None <->
  (forall g, In g (listGroups s) -> ListGroup.id g <> id).
Proof.
  unfold repository_findOne. split.
  - intros H g Hin Hid.
    pose proof (find_none _ _ H g Hin) as Hne. simpl in Hne.
    rewrite Hid, Z.eqb_refl in Hne. discriminate.
  - intro H. apply find_all_false. intros g Hin.
    apply Z.eqb_neq. now apply H.
Qed.

(** C7: [findOne id] raises NotFound exactly when no row of the list-group
    table has that id; when a row has it, a row with that id is returned
    and nothing is raised, and with unique primary keys it is that row. *)
Theorem findOne_NotFound_iff_absent :
  forall (s : Store) (id : Z),
    (findOne s id = Rejected (NotFoundException (notFoundMessage id))
     <-> (forall g, In g (listGroups s) -> ListGroup.id g <> id))
    /\ (forall g, In g (listGroups s) -> ListGroup.id g = id ->
        exists g', findOne s id = Fulfilled g'
                   /\ In g' (listGroups s) /\ ListGroup.id g' = id
                   /\ (NoDup (map ListGroup.id (listGroups s)) -> g' = g)).
Proof.
  intros s id. split.
  - rewrite <- repository_findOne_none. unfold findOne.
    destruct (repository_findOne s id); split; intro H;
      try discriminate; reflexivity.
  - intros g Hin Hid. unfold findOne.
    destruct (repository_findOne s id) as [g'|] eqn:E.
    + exists g'. destruct (repository_findOne_id _ _ _ E) as [Hin' Hid'].
      repeat split; trivial.
      intro Hnd. pose proof (find_unique_id _ _ Hnd Hin) as Hf.
      unfold repository_findOne in E. rewrite Hid in Hf. congruence.
    + exfalso. rewrite repository_findOne_none in E. now apply (E g).
Qed.

Lemma findOne_NotFound_iff_absent_witness :
  let s := mkStore [7]
             [ListGroup.mk 3 "All" (Some ListGroupOptions.ALL) None None
                None None None (Some true) (Some 7) None] 4 [] 1 in
  findOne s 5 = Rejected (NotFoundException "List Group with ID 5 not found")
  /\ exists g', findOne s 3 = Fulfilled g' /\ ListGroup.id g' = 3.
Proof.
  intro s. split.
  - apply (proj1 (findOne_NotFound_iff_absent s 5)).
    intros g [<- | []]. simpl. lia.
  - destruct (proj2 (findOne_NotFound_iff_absent s 3)
                (ListGroup.mk 3 "All" (Some ListGroupOptions.ALL) None None
                   None None None (Some true) (Some 7) None))
      as [g' [Hf [_ [Hid _]]]].
    + simpl. now left.
    + reflexivity.
    + exists g'. split; assumption.
Defined.

Lemma map_overwrite_other (l : list ListGroup.t) (g row : ListGroup.t) :
  In row l -> ListGroup.id row <> ListGroup.id g ->
  In row (map (fun r => if ListGroup.id r =? ListGroup.id g then g else r) l).
Proof.
  intros Hin Hne. apply in_map_iff. exists row. split; [|exact Hin].
  apply Z.eqb_neq in Hne. now rewrite Hne.
Qed.

Lemma map_overwrite_self (l : list ListGroup.t) (g row : ListGroup.t) :
  In row l -> ListGroup.id row = ListGroup.id g ->
  In g (map (fun r => if ListGroup.id r =? ListGroup.id g then g else r) l).
Proof.
  intros Hin He. apply in_map_iff. exists row. split; [|exact Hin].
  now rewrite He, Z.eqb_refl.
Qed.

(** C10: [update] on an id that no row has raises the NotFound error of
    [findOne] and leaves the store as it was; on an id that a row has, the
    saved and returned entity has, property by property, the patch's value
    where the patch carries one and the prior value elsewhere, the row is
    overwritten by it, and every other row and table is untouched. *)
Theorem update_NotFound_or_merge :
  forall (s : Store) (id : Z) (patch : UpdateListGroupDto.t),
    ((forall g, In g (listGroups s) -> ListGroup.id g <> id) ->
     update s id patch = (s, findOne s id)
     /\ findOne s id = Rejected (NotFoundException (notFoundMessage id)))
    /\ (forall g, repository_findOne s id = Some g ->
        exists s' g',
          update s id patch = (s', Fulfilled g')
          /\ ListGroup.id g' = ListGroup.id g
          /\ mergedField (UpdateListGroupDto.name patch)
               (ListGroup.name g) (ListGroup.name g')
          /\ mergedField (UpdateListGroupDto.type patch)
               (ListGroup.type g) (ListGroup.type g')
          /\ mergedField (UpdateListGroupDto.entityId patch)
               (ListGroup.entityId g) (ListGroup.entityId g')
          /\ mergedField (UpdateListGroupDto.entityType patch)
               (ListGroup.entityType g) (ListGroup.entityType g')
          /\ mergedField (UpdateListGroupDto.color patch)
               (ListGroup.color g) (ListGroup.color g')
          /\ mergedField (UpdateListGroupDto.icon patch)
               (ListGroup.icon g) (ListGroup.icon g')
          /\ mergedField (UpdateListGroupDto.order patch)
               (ListGroup.order g) (ListGroup.order g')
          /\ mergedField (UpdateListGroupDto.isExpanded patch)
               (ListGroup.isExpanded g) (ListGroup.isExpanded g')
          /\ mergedField (UpdateListGroupDto.listId patch)
               (ListGroup.listId g) (ListGroup.listId g')
          /\ In g' (listGroups s')
          /\ (forall row, In row (listGroups s) ->
                ListGroup.id row <> id -> In row (listGroups s'))
          /\ List.length (listGroups s') = List.length (listGroups s)
          /\ lists s' = lists s /\ filters s' = filters s
          /\ nextListGroupId s' = nextListGroupId s
          /\ nextFilterId s' = nextFilterId s).
Proof.
  intros s id patch. split.
  - intro Habs. apply repository_findOne_none in Habs.
    unfold update, findOne. rewrite Habs. simpl. split; reflexivity.
  - intros g Hg. destruct (repository_findOne_id _ _ _ Hg) as [Hin Hid].
    exists (repository_save s (merge g patch)), (merge g patch).
    split; [unfold update, findOne; now rewrite Hg|].
    split; [reflexivity|].
    repeat (split;
            [ match goal with
              | |- mergedField ?p _ _ => unfold mergedField; simpl;
                                         destruct p; reflexivity
              end |]).
    split; [simpl; now apply (map_overwrite_self _ (merge g patch) g)|].
    split.
    { intros row Hrow Hne. simpl. apply (map_overwrite_other _ (merge g patch)); trivial.
      simpl. congruence. }
    split; [simpl; apply length_map|].
    repeat split.
Qed.

Lemma update_NotFound_or_merge_witness :
  let row := ListGroup.mk 3 "Todo" (Some ListGroupOptions.LIST_STAGE)
               (Some 1) (Some ListGroupEntityTypes.LIST_STAGE)
               (Some "grey") None (Some 1) (Some true) (Some 7) None in
  let s := mkStore [7] [row] 4 [] 1 in
  let patch := UpdateListGroupDto.mk (Some "Backlog") None None None None
                 None None (Some (Some false)) None in
  fst (update s 9 patch) = s
  /\ exists s' g', update s 3 patch = (s', Fulfilled g')
                   /\ ListGroup.name g' = "Backlog"
                   /\ ListGroup.color g' = Some "grey"
                   /\ ListGroup.isExpanded g' = Some false.
Proof.
  intros row s patch. split.
  - destruct (proj1 (update_NotFound_or_merge s 9 patch)) as [Hu _].
    + intros g [<- | []]. simpl. lia.
    + now rewrite Hu.
  - destruct (proj2 (update_NotFound_or_merge s 3 patch) row eq_refl)
      as [s' [g' [Hu [_ [Hn [_ [_ [_ [Hc [_ [_ [He _]]]]]]]]]]]].
    exists s', g'. repeat split; assumption.
Defined.

(** ** The group query *)

Lemma insertByOrder_perm (g : ListGroup.t) (l : list ListGroup.t) :
  Permutation (g :: l) (insertByOrder g l).
Proof.
  induction l as [|h rest IH]; simpl; [apply Permutation_refl|].
  destruct (orderLeb (ListGroup.order g) (ListGroup.order h)).
  - apply Permutation_refl.
  - eapply perm_trans; [apply perm_swap|]. now apply perm_skip.
Qed.

Lemma orderBy_perm (l : list ListGroup.t) : Permutation l (orderBy l).
Proof.
  induction l as [|h rest IH]; simpl; [constructor|].
  eapply perm_trans; [|apply insertByOrder_perm]. now apply perm_skip.
Qed.

Lemma orderBy_In (g : ListGroup.t) (l : list ListGroup.t) :
  In g (orderBy l) <-> In g l.
Proof.
  split; intro H.
  - eapply Permutation_in; [apply Permutation_sym, orderBy_perm | exact H].
  - eapply Permutation_in; [apply orderBy_perm | exact H].
Qed.

Lemma selectedRows_In (s : Store) (listId : Z)
  (groupBy : option ListGroupOptions.t) (row : ListGroup.t) :
  In row (selectedRows s listId groupBy) <->
  In row (listGroups s) /\ selected s listId groupBy row = true.
Proof.
  unfold selectedRows. rewrite orderBy_In. apply filter_In.
Qed.

Lemma queryGroups_In (s : Store) (listId : Z)
  (groupBy : option ListGroupOptions.t) (g : ListGroup.t) :
  In g (queryGroups s listId groupBy) <->
  exists row, In row (listGroups s)
              /\ selected s listId groupBy row = true
              /\ g = withFilter s row.
Proof.
  unfold queryGroups. rewrite in_map_iff. split.
  - intros [row [He Hin]]. apply selectedRows_In in Hin.
    exists row. destruct Hin. repeat split; auto.
  - intros [row [Hin [Hsel He]]]. exists row. split; [auto|].
    apply selectedRows_In. now split.
Qed.

Lemma selected_true (s : Store) (listId : Z)
  (groupBy : option ListGroupOptions.t) (g : ListGroup.t) :
  In listId (lists s) ->
  ListGroup.listId g = Some listId ->
  ListGroup.type g = groupBy \/ groupBy = None ->
  selected s listId groupBy g = true.
Proof.
  intros Hl Hid Hty. unfold selected. rewrite Hid. simpl.
  rewrite Z.eqb_refl. simpl.
  assert (existsb (Z.eqb listId) (lists s) = true) as ->.
  { apply existsb_exists. exists listId. split; [exact Hl | apply Z.eqb_refl]. }
  simpl. destruct groupBy as [t|]; [|reflexivity].
  destruct Hty as [-> | ?]; [|discriminate].
  simpl. apply ListGroupOptions_eqb_refl.
Qed.

Lemma selected_same_lists (s s' : Store) (listId : Z)
  (groupBy : option ListGroupOptions.t) (g : ListGroup.t) :
  lists s' = lists s ->
  selected s' listId groupBy g = selected s listId groupBy g.
Proof. intro H. unfold selected. now rewrite H. Qed.

Lemma sameKey_withFilter (d : CreateListGroupDto.t) (s : Store)
  (row : ListGroup.t) :
  sameKey d (withFilter s row) = sameKey d row.
Proof. reflexivity. Qed.

Lemma sameKey_created (d : CreateListGroupDto.t) (id listId : Z)
  (groupBy : option ListGroupOptions.t) :
  sameKey d (newListGroup id (creationDto d groupBy listId)) = true.
Proof.
  unfold sameKey. simpl.
  destruct (CreateListGroupDto.entityId d) as [e|];
    destruct (CreateListGroupDto.entityType d) as [[|]|]; simpl;
    rewrite ?Z.eqb_refl, String.eqb_refl; reflexivity.
Qed.

(** ** The reconciliation fan-out *)

Section FanOut.

Variable F : Faults.
Variable existing : list ListGroup.t.
Variable groupBy : option ListGroupOptions.t.
Variable listId : Z.

(** What one reconciliation, and the whole fan-out, can do to the store:
    the lists are untouched and both tables only get rows appended, the
    new list groups being those of the list and strategy. *)
Lemma checkIfGroupExists_store (k : nat)
  (d : CreateListGroupDto.t) (s s' : Store) (p : Promise Reconciled) :
  checkIfGroupExists F existing groupBy listId k d s = (s', p) ->
  lists s' = lists s
  /\ exists newGroups newFilters,
       listGroups s' = listGroups s ++ newGroups
       /\ filters s' = filters s ++ newFilters
       /\ Forall (fun g => ListGroup.listId g = Some listId
                           /\ ListGroup.type g = groupBy) newGroups.
Proof.
  unfold checkIfGroupExists, create, filtersService_create.
  destruct (find (sameKey d) existing).
  - intro H; inversion H; subst. split; [reflexivity|].
    exists [], []. now rewrite !app_nil_r.
  - destruct (groupSaveFails F k).
    + intro H; inversion H; subst. split; [reflexivity|].
      exists [], []. now rewrite !app_nil_r.
    + destruct (CreateListGroupDto.filter d) as [f|].
      * destruct (filterSaveFails F k); intro H; inversion H; subst; simpl;
          (split; [reflexivity|]); eexists; eexists;
          (split; [reflexivity|]); (split; [|repeat constructor]);
          [ symmetry; apply app_nil_r | reflexivity ].
      * intro H; inversion H; subst; simpl. split; [reflexivity|].
        eexists; exists []. split; [reflexivity|].
        split; [now rewrite app_nil_r | repeat constructor].
Qed.

Lemma fanOut_store (cardGroups : list CreateListGroupDto.t) :
  forall (k : nat) (s s' : Store) (ps : list (Promise Reconciled)),
    fanOut F existing groupBy listId k cardGroups s = (s', ps) ->
    lists s' = lists s
    /\ exists newGroups newFilters,
         listGroups s' = listGroups s ++ newGroups
         /\ filters s' = filters s ++ newFilters
         /\ Forall (fun g => ListGroup.listId g = Some listId
                             /\ ListGroup.type g = groupBy) newGroups.
Proof.
  induction cardGroups as [|d rest IH]; intros k s s' ps; simpl.
  - intro H; inversion H; subst. split; [reflexivity|].
    exists [], []. now rewrite !app_nil_r.
  - destruct (checkIfGroupExists F existing groupBy listId k d s)
      as [s1 p] eqn:E1.
    destruct (fanOut F existing groupBy listId (S k) rest s1)
      as [s2 ps2] eqn:E2.
    intro H; inversion H; subst.
    destruct (checkIfGroupExists_store _ _ _ _ _ E1)
      as [Hl1 [g1 [f1 [Hg1 [Hf1 Hn1]]]]].
    destruct (IH _ _ _ _ E2) as [Hl2 [g2 [f2 [Hg2 [Hf2 Hn2]]]]].
    split; [congruence|].
    exists (g1 ++ g2), (f1 ++ f2).
    rewrite Hg2, Hg1, Hf2, Hf1, !app_assoc.
    repeat split. now apply Forall_app.
Qed.

Lemma checkIfGroupExists_settled (k : nat)
  (d : CreateListGroupDto.t) (s s' : Store) (p : Promise Reconciled) :
  checkIfGroupExists F existing groupBy listId k d s = (s', p) ->
  isPending p = false ->
  (exists g, In g existing /\ sameKey d g = true)
  \/ (exists g, In g (listGroups s') /\ sameKey d g = true
                /\ ListGroup.listId g = Some listId
                /\ ListGroup.type g = groupBy).
Proof.
  unfold checkIfGroupExists, create, filtersService_create.
  destruct (find (sameKey d) existing) as [check|] eqn:Ef.
  - intros _ _. left. exists check. now apply find_some in Ef.
  - destruct (groupSaveFails F k);
      [intro H; inversion H; subst; discriminate|].
    assert (forall s0 : Store,
      listGroups s0
      = listGroups s
        ++ [newListGroup (nextListGroupId s) (creationDto d groupBy listId)] ->
      exists g, In g (listGroups s0) /\ sameKey d g = true
                /\ ListGroup.listId g = Some listId
                /\ ListGroup.type g = groupBy) as Hnew.
    { intros s0 Hs0. eexists. split; [rewrite Hs0; apply in_or_app; right;
                                      left; reflexivity|].
      split; [apply sameKey_created | split; reflexivity]. }
    destruct (CreateListGroupDto.filter d) as [f|].
    + destruct (filterSaveFails F k); intro H; inversion H; subst;
        [discriminate|].
      intros _. right. now apply Hnew.
    + intro H; inversion H; subst. intros _. right. now apply Hnew.
Qed.

Lemma fanOut_settled (cardGroups : list CreateListGroupDto.t) :
  forall (k : nat) (s s' : Store) (ps : list (Promise Reconciled)),
    fanOut F existing groupBy listId k cardGroups s = (s', ps) ->
    existsb isPending ps = false ->
    forall d, In d cardGroups ->
      (exists g, In g existing /\ sameKey d g = true)
      \/ (exists g, In g (listGroups s') /\ sameKey d g = true
                    /\ ListGroup.listId g = Some listId
                    /\ ListGroup.type g = groupBy).
Proof.
  induction cardGroups as [|d0 rest IH]; intros k s s' ps; simpl;
    [intros _ _ d []|].
  destruct (checkIfGroupExists F existing groupBy listId k d0 s)
    as [s1 p] eqn:E1.
  destruct (fanOut F existing groupBy listId (S k) rest s1)
    as [s2 ps2] eqn:E2.
  intro H; inversion H; subst. simpl. intro Hp.
  apply orb_false_iff in Hp. destruct Hp as [Hp0 Hps].
  intros d [<- | Hin].
  - destruct (checkIfGroupExists_settled _ _ _ _ _ E1 Hp0)
      as [Hm | [g [Hg Hrest]]]; [now left|].
    right. exists g. split; [|exact Hrest].
    destruct (fanOut_store _ _ _ _ _ E2) as [_ [ng [nf [Hg2 _]]]].
    rewrite Hg2. apply in_or_app. now left.
  - now apply (IH _ _ _ _ E2 Hps).
Qed.

(** When every descriptor has a match, the fan-out creates nothing and
    every promise is fulfilled, whatever the faults. *)
Lemma fanOut_all_matched (cardGroups : list CreateListGroupDto.t) :
  (forall d, In d cardGroups ->
     exists g, In g existing /\ sameKey d g = true) ->
  forall (k : nat) (s : Store),
    exists ps, fanOut F existing groupBy listId k cardGroups s = (s, ps)
               /\ existsb isPending ps = false.
Proof.
  induction cardGroups as [|d rest IH]; intros Hall k s; simpl.
  - exists []. now split.
  - destruct (Hall d (or_introl eq_refl)) as [g [Hg Hk]].
    destruct (find_exists _ _ _ Hg Hk) as [check Hf].
    unfold checkIfGroupExists. rewrite Hf.
    destruct (IH (fun d' Hd' => Hall d' (or_intror Hd')) (S k) s)
      as [ps [Hps Hnone]].
    rewrite Hps. eexists. split; [reflexivity|]. simpl. exact Hnone.
Qed.

End FanOut.

(** ** Runs of [generateGroups] *)

Lemma desiredGroups_value (W : World) (F F' : Faults) (listId : Z)
  (groupBy : option ListGroupOptions.t) (cg cg' : list CreateListGroupDto.t) :
  desiredGroups W F listId groupBy = Fulfilled cg ->
  desiredGroups W F' listId groupBy = Fulfilled cg' ->
  cg' = cg.
Proof.
  unfold desiredGroups, call.
  destruct groupBy as [[| | |]|];
    try destruct (stageLookupFails F); try destruct (stageLookupFails F');
    try destruct (userLookupFails F); try destruct (userLookupFails F');
    congruence.
Qed.

Lemma desiredGroups_noFaults (W : World) (F : Faults) (listId : Z)
  (groupBy : option ListGroupOptions.t) (cg : list CreateListGroupDto.t) :
  desiredGroups W F listId groupBy = Fulfilled cg ->
  desiredGroups W noFaults listId groupBy = Fulfilled cg.
Proof.
  unfold desiredGroups, call. simpl.
  destruct groupBy as [[| | |]|];
    try destruct (stageLookupFails F); try destruct (userLookupFails F);
    congruence.
Qed.

Lemma generateGroups_returns_inv (W : World) (F : Faults) (s s1 : Store)
  (params : GenerateGroupsParams) (r : list ListGroup.t) :
  generateGroups W F s params = (s1, Fulfilled r) ->
  exists cg ps,
    desiredGroups W F (p_listId params) (p_groupBy params) = Fulfilled cg
    /\ fanOut F (queryGroups s (p_listId params) (p_groupBy params))
         (p_groupBy params) (p_listId params) 0%nat cg s = (s1, ps)
    /\ existsb isPending ps = false
    /\ r = returned W s1 params.
Proof.
  unfold generateGroups, returned, findAll, call, await, allSettled.
  destruct (initialFetchFails F); [discriminate|].
  destruct (desiredGroups W F (p_listId params) (p_groupBy params))
    as [|cg|e]; try discriminate.
  destruct (fanOut F (queryGroups s (p_listId params) (p_groupBy params))
              (p_groupBy params) (p_listId params) 0%nat cg s)
    as [s1' ps] eqn:Efan.
  destruct (existsb isPending ps) eqn:Epend; [discriminate|].
  destruct (finalFetchFails F); [discriminate|].
  destruct (isListStage (p_groupBy params) && p_ignoreCompleted params).
  - destruct (openStageLookupFails F); [discriminate|].
    intro H; inversion H; subst. now exists cg, ps.
  - intro H; inversion H; subst. now exists cg, ps.
Qed.

Lemma generateGroups_noFaults_run (W : World) (s s1 : Store)
  (params : GenerateGroupsParams) (cg : list CreateListGroupDto.t)
  (ps : list (Promise Reconciled)) :
  desiredGroups W noFaults (p_listId params) (p_groupBy params)
  = Fulfilled cg ->
  fanOut noFaults (queryGroups s (p_listId params) (p_groupBy params))
    (p_groupBy params) (p_listId params) 0%nat cg s = (s1, ps) ->
  existsb isPending ps = false ->
  generateGroups W noFaults s params = (s1, Fulfilled (returned W s1 params)).
Proof.
  intros Hd Hf Hp.
  unfold generateGroups, returned, findAll, call, await, allSettled.
  simpl. rewrite Hd, Hf, Hp.
  now destruct (isListStage (p_groupBy params) && p_ignoreCompleted params).
Qed.

(** The store after a run: whatever the outcome, the lists are untouched
    and both tables only got rows appended. *)
Lemma generateGroups_store (W : World) (F : Faults) (s : Store)
  (params : GenerateGroupsParams) :
  lists (fst (generateGroups W F s params)) = lists s
  /\ exists newGroups newFilters,
       listGroups (fst (generateGroups W F s params))
       = listGroups s ++ newGroups
       /\ filters (fst (generateGroups W F s params))
          = filters s ++ newFilters
       /\ Forall (fun g => ListGroup.listId g = Some (p_listId params)
                           /\ ListGroup.type g = p_groupBy params)
            newGroups.
Proof.
  assert (lists s = lists s
          /\ exists newGroups newFilters,
               listGroups s = listGroups s ++ newGroups
               /\ filters s = filters s ++ newFilters
               /\ Forall (fun g => ListGroup.listId g = Some (p_listId params)
                                   /\ ListGroup.type g = p_groupBy params)
                    newGroups) as Hsame.
  { split; [reflexivity|]. exists [], []. now rewrite !app_nil_r. }
  unfold generateGroups, findAll, call, await, allSettled.
  destruct (initialFetchFails F); [exact Hsame|].
  destruct (desiredGroups W F (p_listId params) (p_groupBy params))
    as [|cg|e]; try exact Hsame.
  destruct (fanOut F (queryGroups s (p_listId params) (p_groupBy params))
              (p_groupBy params) (p_listId params) 0%nat cg s)
    as [s1 ps] eqn:Efan.
  pose proof (fanOut_store _ _ _ _ _ _ _ _ _ Efan) as Hgrow.
  destruct (existsb isPending ps); [exact Hgrow|].
  destruct (finalFetchFails F); [exact Hgrow|].
  destruct (isListStage (p_groupBy params) && p_ignoreCompleted params);
    [|exact Hgrow].
  destruct (openStageLookupFails F); exact Hgrow.
Qed.

(** C8: whatever a call of [generateGroups] does (return, throw or never
    settle), the store afterwards has the same lists, and each table is
    the table before with rows appended; so every list-group row present
    before is present, unchanged, afterwards, and a lookup by id that
    found a row finds the same row.  The appended list groups are those of
    the list and strategy of the call. *)
Theorem generateGroups_only_appends :
  forall (W : World) (F : Faults) (s : Store) (params : GenerateGroupsParams),
    lists (fst (generateGroups W F s params)) = lists s
    /\ (exists newGroups newFilters,
          listGroups (fst (generateGroups W F s params))
          = listGroups s ++ newGroups
          /\ filters (fst (generateGroups W F s params))
             = filters s ++ newFilters
          /\ Forall (fun g => ListGroup.listId g = Some (p_listId params)
                              /\ ListGroup.type g = p_groupBy params)
               newGroups)
    /\ (forall g, In g (listGroups s) ->
          In g (listGroups (fst (generateGroups W F s params))))
    /\ (forall id g, repository_findOne s id = Some g ->
          repository_findOne (fst (generateGroups W F s params)) id = Some g).
Proof.
  intros W F s params.
  destruct (generateGroups_store W F s params)
    as [Hl [ng [nf [Hg [Hf Hn]]]]].
  split; [exact Hl|]. split; [now exists ng, nf|]. split.
  - intros g Hin. rewrite Hg. apply in_or_app. now left.
  - intros id g Hfind. unfold repository_findOne in *. rewrite Hg.
    now apply find_app_some.
Qed.

Lemma matched_after_run (W : World) (F : Faults) (s s1 : Store)
  (params : GenerateGroupsParams) (r : list ListGroup.t)
  (cg : list CreateListGroupDto.t) :
  In (p_listId params) (lists s) ->
  generateGroups W F s params = (s1, Fulfilled r) ->
  desiredGroups W F (p_listId params) (p_groupBy params) = Fulfilled cg ->
  forall d, In d cg ->
    exists g, In g (queryGroups s1 (p_listId params) (p_groupBy params))
              /\ sameKey d g = true.
Proof.
  intros Hlist Hrun Hcg d Hd.
  destruct (generateGroups_returns_inv _ _ _ _ _ _ Hrun)
    as [cg' [ps [Hcg' [Hfan [Hpend _]]]]].
  assert (cg' = cg) by congruence. subst cg'.
  destruct (fanOut_store _ _ _ _ _ _ _ _ _ Hfan) as [Hl [ng [nf [Hg _]]]].
  destruct (fanOut_settled _ _ _ _ _ _ _ _ _ Hfan Hpend d Hd)
    as [[g [Hin Hk]] | [g [Hin [Hk [Hlid Hty]]]]].
  - apply queryGroups_In in Hin. destruct Hin as [row [Hrow [Hsel ->]]].
    exists (withFilter s1 row). split; [|exact Hk].
    apply queryGroups_In. exists row. split; [|split; [|reflexivity]].
    + rewrite Hg. apply in_or_app. now left.
    + now rewrite (selected_same_lists s s1).
  - exists (withFilter s1 g). split; [|exact Hk].
    apply queryGroups_In. exists g. split; [exact Hin|].
    split; [|reflexivity]. apply selected_true; auto. now rewrite Hl.
Qed.

(** C1: for a list that exists, once a call of [generateGroups] has
    returned, a second call with the same list and strategy over the same
    stages and users leaves the store exactly as the first call left it
    (no list-group row and no filter row is created), whatever fails
    during the second call; and when nothing fails the second call returns
    what the first returned. *)
Theorem generateGroups_idempotent :
  forall (W : World) (F : Faults) (s s1 : Store)
         (params : GenerateGroupsParams) (r : list ListGroup.t),
    In (p_listId params) (lists s) ->
    generateGroups W F s params = (s1, Fulfilled r) ->
    (forall F2, fst (generateGroups W F2 s1 params) = s1)
    /\ generateGroups W noFaults s1 params = (s1, Fulfilled r).
Proof.
  intros W F s s1 params r Hlist Hrun.
  destruct (generateGroups_returns_inv _ _ _ _ _ _ Hrun)
    as [cg [ps [Hcg [Hfan [Hpend Hr]]]]].
  pose proof (matched_after_run _ _ _ _ _ _ _ Hlist Hrun Hcg) as Hall.
  split.
  - intro F2. unfold generateGroups, findAll, call, await, allSettled.
    destruct (initialFetchFails F2); [reflexivity|].
    destruct (desiredGroups W F2 (p_listId params) (p_groupBy params))
      as [|cg2|e] eqn:Hcg2; try reflexivity.
    assert (cg2 = cg) by (eapply desiredGroups_value; eauto). subst cg2.
    destruct (fanOut_all_matched F2 _ (p_groupBy params) (p_listId params)
                cg Hall 0%nat s1) as [ps2 [Hfan2 Hpend2]].
    rewrite Hfan2, Hpend2.
    destruct (finalFetchFails F2); [reflexivity|].
    destruct (isListStage (p_groupBy params) && p_ignoreCompleted params);
      [|reflexivity].
    destruct (openStageLookupFails F2); reflexivity.
  - destruct (fanOut_all_matched noFaults _ (p_groupBy params)
                (p_listId params) cg Hall 0%nat s1) as [ps2 [Hfan2 Hpend2]].
    rewrite Hr.
    eapply generateGroups_noFaults_run; eauto.
    eapply desiredGroups_noFaults; eauto.
Qed.

Lemma generateGroups_only_appends_witness :
  In (ListGroup.mk 2 "No Assignee" (Some ListGroupOptions.ASSIGNEES) None None
        None None None (Some true) (Some 7) None)
    (listGroups (fst (generateGroups boardWorld noFaults mixedStore
                        (byStage false)))).
Proof.
  apply (proj1 (proj2 (proj2
    (generateGroups_only_appends boardWorld noFaults mixedStore
       (byStage false))))).
  simpl. right. left. reflexivity.
Defined.

Lemma generateGroups_idempotent_witness :
  let s1 := fst (generateGroups boardWorld noFaults boardStore (byStage false)) in
  List.length (listGroups s1) = 3%nat
  /\ fst (generateGroups boardWorld secondSaveFails s1 (byStage false)) = s1.
Proof.
  intro s1. split; [reflexivity|].
  apply (proj1 (generateGroups_idempotent boardWorld noFaults boardStore s1
                  (byStage false)
                  (returned boardWorld s1 (byStage false))
                  (or_introl eq_refl) eq_refl)).
Defined.

(** ** Failed creations *)

Lemma fanOut_pending (F : Faults) (existing : list ListGroup.t)
  (groupBy : option ListGroupOptions.t) (listId : Z)
  (d : CreateListGroupDto.t) (cardGroups : list CreateListGroupDto.t) :
  find (sameKey d) existing = None ->
  forall (i k : nat) (s : Store),
    nth_error cardGroups i = Some d ->
    groupSaveFails F (k + i) = true
    \/ (filterSaveFails F (k + i) = true
        /\ CreateListGroupDto.filter d <> None) ->
    existsb isPending
      (snd (fanOut F existing groupBy listId k cardGroups s)) = true.
Proof.
  intro Hnone.
  induction cardGroups as [|d0 rest IH]; intros i k s Hnth Hfail.
  - destruct i; discriminate.
  - simpl.
    destruct (checkIfGroupExists F existing groupBy listId k d0 s)
      as [s1 p] eqn:E1.
    destruct (fanOut F existing groupBy listId (S k) rest s1)
      as [s2 ps2] eqn:E2.
    simpl. destruct i as [|i].
    + simpl in Hnth. inversion Hnth; subst d0. rewrite Nat.add_0_r in Hfail.
      unfold checkIfGroupExists, create, filtersService_create in E1.
      rewrite Hnone in E1.
      destruct (groupSaveFails F k).
      * inversion E1; subst. reflexivity.
      * destruct Hfail as [? | [Hff Hsome]]; [discriminate|].
        destruct (CreateListGroupDto.filter d); [|contradiction].
        rewrite Hff in E1. inversion E1; subst. reflexivity.
    + apply orb_true_iff. right.
      replace ps2 with (snd (fanOut F existing groupBy listId (S k) rest s1))
        by now rewrite E2.
      apply (IH i (S k) s1); [exact Hnth|].
      now replace (S k + i)%nat with (k + S i)%nat by lia.
Qed.

(** C2 (what the code does): when a descriptor that has no match is
    created and the save of its list group rejects, or the save of its
    filter rejects, the promise of that descriptor is never settled, and
    the call of [generateGroups] neither returns nor throws: its promise
    stays pending. *)
Theorem generateGroups_never_settles_on_failed_creation :
  forall (W : World) (F : Faults) (s : Store) (params : GenerateGroupsParams)
         (cardGroups : list CreateListGroupDto.t) (k : nat)
         (d : CreateListGroupDto.t),
    initialFetchFails F = false ->
    desiredGroups W F (p_listId params) (p_groupBy params)
    = Fulfilled cardGroups ->
    nth_error cardGroups k = Some d ->
    find (sameKey d)
      (queryGroups s (p_listId params) (p_groupBy params)) = None ->
    groupSaveFails F k = true
    \/ (filterSaveFails F k = true /\ CreateListGroupDto.filter d <> None) ->
    snd (generateGroups W F s params) = Pending.
Proof.
  intros W F s params cardGroups k d Hinit Hcg Hnth Hnone Hfail.
  pose proof (fanOut_pending F _ (p_groupBy params) (p_listId params) d
                cardGroups Hnone k 0%nat s Hnth Hfail) as Hpend.
  unfold generateGroups, findAll, call, await, allSettled.
  rewrite Hinit, Hcg.
  destruct (fanOut F (queryGroups s (p_listId params) (p_groupBy params))
              (p_groupBy params) (p_listId params) 0%nat cardGroups s)
    as [s1 ps].
  simpl in Hpend. now rewrite Hpend.
Qed.

(** On the board of the example, with the save of the "Doing" group
    rejected: the call never settles, while the sibling groups "Todo" and
    "Done" are created. *)
Lemma generateGroups_never_settles_on_failed_creation_witness :
  snd (generateGroups boardWorld secondSaveFails boardStore (byStage false))
  = Pending
  /\ map ListGroup.name
       (listGroups
          (fst (generateGroups boardWorld secondSaveFails boardStore
                  (byStage false))))
     = ["Todo"; "Done"].
Proof.
  split; [|reflexivity].
  apply (generateGroups_never_settles_on_failed_creation boardWorld
           secondSaveFails boardStore (byStage false)
           (generateGroupsByListStage
              (listStagesService_findAll boardWorld 7))
           1%nat
           (stageGroup (ListStage.mk 2 "Doing" "blue" 2 false 7))).
  - reflexivity.
  - reflexivity.
  - reflexivity.
  - reflexivity.
  - left. reflexivity.
Defined.

(** A call only throws when one of the fetches or lookups it awaits
    rejects; a rejected creation is never thrown to the caller. *)
Lemma generateGroups_throws_only_on_fetch (W : World) (F : Faults)
  (s : Store) (params : GenerateGroupsParams) (e : Exception) :
  snd (generateGroups W F s params) = Rejected e ->
  initialFetchFails F = true \/ stageLookupFails F = true
  \/ userLookupFails F = true \/ finalFetchFails F = true
  \/ openStageLookupFails F = true.
Proof.
  unfold generateGroups, findAll, call, await, allSettled.
  destruct (initialFetchFails F); [now left|].
  unfold desiredGroups, call.
  destruct (stageLookupFails F); [now (right; left)|].
  destruct (userLookupFails F); [now (right; right; left)|].
  destruct (finalFetchFails F); [now (right; right; right; left)|].
  destruct (openStageLookupFails F); [now (right; right; right; right)|].
  destruct (p_groupBy params) as [[| | |]|];
    match goal with
    | |- context [fanOut ?a ?b ?c ?d ?e ?f ?g] =>
        destruct (fanOut a b c d e f g) as [s1 ps]
    end;
    destruct (existsb isPending ps); simpl;
    try destruct (p_ignoreCompleted params); simpl; discriminate.
Qed.

(** ** Ignoring completed stages *)

Lemma namedAfter_open (W : World) (listId : Z) (g : ListGroup.t) :
  namedAfter (listStagesService_findBy W listId false) g = true <->
  exists stage, In stage (stageTable W)
                /\ ListStage.listId stage = listId
                /\ ListStage.isCompleted stage = false
                /\ ListStage.name stage = ListGroup.name g.
Proof.
  unfold namedAfter, listStagesService_findBy.
  rewrite existsb_exists. split.
  - intros [n [Hin Heq]]. apply in_map_iff in Hin.
    destruct Hin as [stage [<- Hin]]. apply filter_In in Hin.
    destruct Hin as [Hin Hsel]. apply andb_true_iff in Hsel.
    destruct Hsel as [Hl Hc]. exists stage.
    split; [exact Hin|]. split; [now apply Z.eqb_eq|].
    split; [now apply Bool.eqb_prop in Hc|].
    symmetry. now apply String.eqb_eq.
  - intros [stage [Hin [Hl [Hc Hn]]]]. exists (ListStage.name stage).
    split; [|rewrite Hn; apply String.eqb_refl].
    apply in_map. apply filter_In. split; [exact Hin|].
    rewrite Hl, Hc, Z.eqb_refl. reflexivity.
Qed.

(** C6, as the code has it: with strategy LIST_STAGE and ignoreCompleted
    set, a call that returns yields the final fetch of the list's
    LIST_STAGE groups, in its order, restricted to the groups whose name is
    the name of some non-completed stage of the list; a group of that
    fetch whose name is the name of no non-completed stage is left out of
    the result and is still a row of the table. *)
Theorem generateGroups_ignoreCompleted_keeps_open_names :
  forall (W : World) (F : Faults) (s s' : Store) (listId : Z)
         (r : list ListGroup.t),
    generateGroups W F s (mkParams listId true (Some ListGroupOptions.LIST_STAGE))
    = (s', Fulfilled r) ->
    r = List.filter (namedAfter (listStagesService_findBy W listId false))
          (queryGroups s' listId (Some ListGroupOptions.LIST_STAGE))
    /\ (forall g,
          In g r <->
          In g (queryGroups s' listId (Some ListGroupOptions.LIST_STAGE))
          /\ exists stage, In stage (stageTable W)
                           /\ ListStage.listId stage = listId
                           /\ ListStage.isCompleted stage = false
                           /\ ListStage.name stage = ListGroup.name g)
    /\ (forall g,
          In g (queryGroups s' listId (Some ListGroupOptions.LIST_STAGE)) ->
          (forall stage, In stage (stageTable W) ->
             ListStage.listId stage = listId ->
             ListStage.isCompleted stage = false ->
             ListStage.name stage <> ListGroup.name g) ->
          ~ In g r
          /\ exists row, In row (listGroups s') /\ g = withFilter s' row).
Proof.
  intros W F s s' listId r Hrun.
  destruct (generateGroups_returns_inv _ _ _ _ _ _ Hrun)
    as [cg [ps [_ [_ [_ Hr]]]]].
  unfold returned in Hr. simpl in Hr.
  assert (forall g,
            In g r <->
            In g (queryGroups s' listId (Some ListGroupOptions.LIST_STAGE))
            /\ exists stage, In stage (stageTable W)
                             /\ ListStage.listId stage = listId
                             /\ ListStage.isCompleted stage = false
                             /\ ListStage.name stage = ListGroup.name g)
    as Hiff.
  { intro g. rewrite Hr, filter_In, namedAfter_open. reflexivity. }
  split; [exact Hr|]. split; [exact Hiff|].
  intros g Hin Hno. split.
  - intro Hg. apply Hiff in Hg.
    destruct Hg as [_ [stage [H1 [H2 [H3 H4]]]]]. now apply (Hno stage).
  - apply queryGroups_In in Hin. destruct Hin as [row [Hrow [_ He]]].
    now exists row.
Qed.

(** The spec's example: stages Todo, Doing and Done (completed); the call
    returns the Todo and Doing groups in stage order, and the Done group
    is a row of the table. *)
Lemma generateGroups_ignoreCompleted_keeps_open_names_witness :
  exists s' r,
    generateGroups boardWorld noFaults boardStore (byStage true)
    = (s', Fulfilled r)
    /\ map ListGroup.name r = ["Todo"; "Doing"]
    /\ map ListGroup.name (listGroups s') = ["Todo"; "Doing"; "Done"].
Proof.
  exists (fst (generateGroups boardWorld noFaults boardStore (byStage true))).
  exists (returned boardWorld
            (fst (generateGroups boardWorld noFaults boardStore (byStage true)))
            (byStage true)).
  split; [reflexivity|]. split; [|reflexivity].
  etransitivity;
    [ exact (f_equal (map ListGroup.name)
               (proj1 (generateGroups_ignoreCompleted_keeps_open_names
                         boardWorld noFaults boardStore _ 7 _ eq_refl)))
    | reflexivity ].
Defined.

(** C6, as stated, fails: when a completed stage shares its name with a
    non-completed stage, the group generated from the completed stage is
    part of the result. *)
Lemma completed_stage_group_returned :
  exists s' r g stage,
    generateGroups reviewWorld noFaults boardStore (byStage true)
    = (s', Fulfilled r)
    /\ In g r
    /\ In stage (listStagesService_findAll reviewWorld 7)
    /\ ListStage.isCompleted stage = true
    /\ ListGroup.name g = ListStage.name stage
    /\ ListGroup.entityId g = Some (ListStage.id stage).
Proof.
  eexists. eexists. eexists. exists (ListStage.mk 2 "Review" "green" 2 true 7).
  split; [reflexivity|]. simpl.
  split; [right; left; reflexivity|].
  split; [right; left; reflexivity|].
  repeat split.
Qed.

(** ** Unset strategy *)

(** C9: with an unset strategy, when the fetches and the save do not fail,
    the call returns the final fetch made without a strategy constraint:
    every row of the list, of whatever strategy, is returned.  When no
    group of the initial, unconstrained fetch matches the default
    descriptor, exactly one row is appended: named "All", expanded, of the
    list, and with the unset strategy as its type, not ALL; no filter is
    created.  When a group matches, nothing is created. *)
Theorem generateGroups_unset_strategy :
  forall (W : World) (F : Faults) (s : Store) (listId : Z)
         (ignoreCompleted : bool),
    initialFetchFails F = false ->
    finalFetchFails F = false ->
    groupSaveFails F 0%nat = false ->
    exists s',
      generateGroups W F s (mkParams listId ignoreCompleted None)
      = (s', Fulfilled (queryGroups s' listId None))
      /\ (forall row, In row (listGroups s') ->
            ListGroup.listId row = Some listId -> In listId (lists s') ->
            In (withFilter s' row) (queryGroups s' listId None))
      /\ ((forall g, In g (queryGroups s listId None) ->
             sameKey DEFAULT_GROUP g = false) ->
          listGroups s'
          = listGroups s
            ++ [ ListGroup.mk (nextListGroupId s) "All" None None None None
                   None None (Some true) (Some listId) None ]
          /\ filters s' = filters s /\ lists s' = lists s)
      /\ ((exists g, In g (queryGroups s listId None)
                     /\ sameKey DEFAULT_GROUP g = true) ->
          s' = s).
Proof.
  intros W F s listId ignoreCompleted Hinit Hfinal Hsave.
  assert (forall s' row, In row (listGroups s') ->
            ListGroup.listId row = Some listId -> In listId (lists s') ->
            In (withFilter s' row) (queryGroups s' listId None)) as Hevery.
  { intros s' row Hin Hl Hlist. apply queryGroups_In. exists row.
    split; [exact Hin|]. split; [|reflexivity].
    apply selected_true; auto. }
  unfold generateGroups, findAll, call, await, allSettled. simpl.
  rewrite Hinit. unfold checkIfGroupExists, create. simpl.
  destruct (find (sameKey DEFAULT_GROUP) (queryGroups s listId None))
    as [check|] eqn:Ef.
  - simpl. rewrite Hfinal. exists s. split; [reflexivity|].
    split; [apply Hevery|]. split; [|reflexivity].
    intro Hno. apply find_some in Ef. destruct Ef as [Hin Hk].
    rewrite (Hno check Hin) in Hk. discriminate.
  - rewrite Hsave. simpl. rewrite Hfinal.
    eexists. split; [reflexivity|]. split; [apply Hevery|].
    split; [intros _; repeat split|].
    intros [g [Hin Hk]]. rewrite (find_none _ _ Ef g Hin) in Hk.
    discriminate.
Qed.

(** On a list that has one group of each strategy: the call appends the
    row "All" with an unset type and returns the four groups. *)
Lemma generateGroups_unset_strategy_witness :
  exists s' r,
    generateGroups boardWorld noFaults mixedStore (mkParams 7 false None)
    = (s', Fulfilled r)
    /\ map ListGroup.name r = ["Todo"; "Today"; "No Assignee"; "All"]
    /\ map ListGroup.type (listGroups s')
       = [ Some ListGroupOptions.LIST_STAGE; Some ListGroupOptions.ASSIGNEES;
           Some ListGroupOptions.DUE_DATE; None ].
Proof.
  destruct (generateGroups_unset_strategy boardWorld noFaults mixedStore 7
              false eq_refl eq_refl eq_refl)
    as [s' [Hrun [_ [Hnew _]]]].
  destruct Hnew as [Hrows [Hfilters Hlists]].
  { intros g Hg. simpl in Hg.
    destruct Hg as [<- | [<- | [<- | []]]]; reflexivity. }
  exists s', (queryGroups s' 7 None). split; [exact Hrun|].
  unfold queryGroups, selectedRows, selected.
  rewrite map_map, Hrows, Hlists. split; reflexivity.
Defined.

(** * Further properties of the service *)

(** ** The group query *)

Lemma orderLeb_total (a b : option Z) :
  orderLeb a b = false -> orderLeb b a = true.
Proof.
  destruct a as [x|], b as [y|]; simpl; try congruence.
  intro H. apply Z.leb_gt in H. apply Z.leb_le. lia.
Qed.

Lemma orderLeb_trans (a b c : option Z) :
  orderLeb a b = true -> orderLeb b c = true -> orderLeb a c = true.
Proof.
  destruct a as [x|], b as [y|], c as [z|]; simpl; try congruence.
  intros H1 H2. apply Z.leb_le in H1, H2. apply Z.leb_le. lia.
Qed.

Lemma insertByOrder_sorted (g : ListGroup.t) (l : list ListGroup.t) :
  StronglySorted ascending l -> StronglySorted ascending (insertByOrder g l).
Proof.
  induction l as [|h rest IH]; intro Hs; simpl.
  - constructor; constructor.
  - inversion Hs as [|? ? Hrest Hall]; subst.
    destruct (orderLeb (ListGroup.order g) (ListGroup.order h)) eqn:E.
    + constructor; [exact Hs|]. constructor; [exact E|].
      eapply Forall_impl; [|exact Hall].
      intros b Hb. unfold ascending in *. eapply orderLeb_trans; eauto.
    + constructor; [now apply IH|].
      apply Forall_forall. intros b Hb.
      apply (Permutation_in _ (Permutation_sym (insertByOrder_perm g rest)))
        in Hb.
      destruct Hb as [<- | Hb].
      * now apply orderLeb_total.
      * rewrite Forall_forall in Hall. now apply Hall.
Qed.

Lemma orderBy_sorted (l : list ListGroup.t) :
  StronglySorted ascending (orderBy l).
Proof.
  induction l as [|h rest IH]; simpl; [constructor|].
  now apply insertByOrder_sorted.
Qed.

Lemma queryGroups_sorted (s : Store) (listId : Z)
  (groupBy : option ListGroupOptions.t) :
  StronglySorted ascending (queryGroups s listId groupBy).
Proof.
  unfold queryGroups, selectedRows.
  generalize (orderBy_sorted
                (List.filter (selected s listId groupBy) (listGroups s))).
  generalize (orderBy (List.filter (selected s listId groupBy) (listGroups s))).
  intros l Hs. induction Hs as [|a l Hs IH Hall]; simpl; constructor.
  - exact IH.
  - apply Forall_forall. intros b Hb. apply in_map_iff in Hb.
    destruct Hb as [b0 [<- Hb0]]. rewrite Forall_forall in Hall.
    exact (Hall b0 Hb0).
Qed.

Lemma StronglySorted_nth_error {A : Type} (R : A -> A -> Prop) (l : list A) :
  StronglySorted R l ->
  forall (i j : nat) (a b : A),
    (i < j)%nat -> nth_error l i = Some a -> nth_error l j = Some b -> R a b.
Proof.
  induction 1 as [|x l Hs IH Hall]; intros i j a b Hij Ha Hb.
  - destruct i; discriminate.
  - destruct j as [|j]; [lia|]. simpl in Hb. destruct i as [|i].
    + simpl in Ha. inversion Ha; subst. rewrite Forall_forall in Hall.
      apply Hall. eapply nth_error_In; eauto.
    + simpl in Ha. apply (IH i j); auto. lia.
Qed.

(** X1: the groups [findAll] returns are in ascending [order]: of two
    groups of the result that have an order, the earlier one has the
    smaller or equal order. *)
Theorem findAll_ascending_order :
  forall (fails : bool) (s : Store) (listId : Z)
         (groupBy : option ListGroupOptions.t) (r : list ListGroup.t)
         (i j : nat) (a b : ListGroup.t) (x y : Z),
    findAll fails s listId groupBy = Fulfilled r ->
    (i < j)%nat -> nth_error r i = Some a -> nth_error r j = Some b ->
    ListGroup.order a = Some x -> ListGroup.order b = Some y ->
    x <= y.
Proof.
  intros fails s listId groupBy r i j a b x y Hf Hij Ha Hb Hx Hy.
  unfold findAll, call in Hf. destruct fails; [discriminate|].
  inversion Hf; subst r.
  pose proof (StronglySorted_nth_error _ _
                (queryGroups_sorted s listId groupBy) i j a b Hij Ha Hb) as H.
  unfold ascending in H. rewrite Hx, Hy in H. now apply Z.leb_le.
Qed.

Lemma findAll_ascending_order_witness :
  exists a b,
    nth_error (queryGroups mixedStore 7 None) 0 = Some a
    /\ nth_error (queryGroups mixedStore 7 None) 1 = Some b
    /\ ListGroup.name a = "Todo" /\ ListGroup.name b = "Today"
    /\ 1 <= 2.
Proof.
  eexists. eexists.
  split; [reflexivity|]. split; [reflexivity|].
  split; [reflexivity|]. split; [reflexivity|].
  apply (findAll_ascending_order false mixedStore 7 None
           (queryGroups mixedStore 7 None) 0 1 _ _ 1 2
           eq_refl (le_n 1) eq_refl eq_refl eq_refl eq_refl).
Defined.

Lemma selected_inv (s : Store) (listId : Z)
  (groupBy : option ListGroupOptions.t) (g : ListGroup.t) :
  selected s listId groupBy g = true <->
  ListGroup.listId g = Some listId
  /\ In listId (lists s)
  /\ (forall t, groupBy = Some t -> ListGroup.type g = Some t).
Proof.
  unfold selected. rewrite !andb_true_iff. split.
  - intros [[Hl He] Ht]. split; [|split].
    + destruct (ListGroup.listId g) as [l|]; simpl in Hl; [|discriminate].
      apply Z.eqb_eq in Hl. now subst.
    + apply existsb_exists in He. destruct He as [x [Hx Hxe]].
      apply Z.eqb_eq in Hxe. now subst.
    + intros t ->. destruct (ListGroup.type g) as [t'|]; simpl in Ht;
        [|discriminate].
      apply ListGroupOptions_eqb_eq in Ht. now subst.
  - intros [Hl [He Ht]]. split; [split|].
    + rewrite Hl. simpl. apply Z.eqb_refl.
    + apply existsb_exists. exists listId. split; [exact He|apply Z.eqb_refl].
    + destruct groupBy as [t|]; [|reflexivity].
      rewrite (Ht t eq_refl). simpl. apply ListGroupOptions_eqb_refl.
Qed.

(** X2: [findAll] returns, each once and with its filter mapped, exactly
    the rows of the table that belong to the list, the list existing, and
    that have the strategy asked for when one is given. *)
Theorem findAll_selects_list_and_strategy :
  forall (fails : bool) (s : Store) (listId : Z)
         (groupBy : option ListGroupOptions.t) (r : list ListGroup.t),
    findAll fails s listId groupBy = Fulfilled r ->
    Permutation r
      (map (withFilter s)
         (List.filter (selected s listId groupBy) (listGroups s)))
    /\ (forall g, In g r <->
          exists row, In row (listGroups s) /\ g = withFilter s row
                      /\ ListGroup.listId row = Some listId
                      /\ In listId (lists s)
                      /\ (forall t, groupBy = Some t ->
                            ListGroup.type row = Some t)).
Proof.
  intros fails s listId groupBy r Hf.
  unfold findAll, call in Hf. destruct fails; [discriminate|].
  inversion Hf; subst r. split.
  - unfold queryGroups, selectedRows. apply Permutation_map.
    apply Permutation_sym, orderBy_perm.
  - intro g. rewrite queryGroups_In. split.
    + intros [row [Hin [Hsel He]]]. exists row.
      apply selected_inv in Hsel. tauto.
    + intros [row [Hin [He Hsel]]]. exists row.
      split; [exact Hin|]. split; [|exact He]. now apply selected_inv.
Qed.

Lemma findAll_selects_list_and_strategy_witness :
  exists g,
    nth_error (queryGroups mixedStore 7 (Some ListGroupOptions.DUE_DATE)) 0
    = Some g
    /\ ListGroup.name g = "Today"
    /\ ListGroup.type g = Some ListGroupOptions.DUE_DATE.
Proof.
  eexists. split; [reflexivity|]. split; [reflexivity|].
  match goal with
  | |- ListGroup.type ?g = _ =>
      destruct (proj1 (proj2 (findAll_selects_list_and_strategy false
                                mixedStore 7 (Some ListGroupOptions.DUE_DATE)
                                (queryGroups mixedStore 7
                                   (Some ListGroupOptions.DUE_DATE))
                                eq_refl) g))
        as [row [_ [He [_ [_ Ht]]]]];
      [simpl; left; reflexivity|]
  end.
  rewrite He. simpl. now apply Ht.
Defined.

(** X3: [findAll] returns the empty sequence when no row of the table
    belongs to the list, and also, because of the inner join, when the
    list does not exist. *)
Theorem findAll_empty :
  forall (s : Store) (listId : Z) (groupBy : option ListGroupOptions.t),
    (~ In listId (lists s)
     \/ forall g, In g (listGroups s) -> ListGroup.listId g <> Some listId) ->
    findAll false s listId groupBy = Fulfilled [].
Proof.
  intros s listId groupBy H. unfold findAll, call.
  destruct (queryGroups s listId groupBy) as [|g rest] eqn:E; [reflexivity|].
  assert (In g (queryGroups s listId groupBy)) as Hin
    by (rewrite E; now left).
  apply queryGroups_In in Hin. destruct Hin as [row [Hrow [Hsel _]]].
  apply selected_inv in Hsel. destruct Hsel as [Hl [He _]].
  destruct H as [H | H]; [contradiction | now elim (H row Hrow)].
Qed.

Lemma findAll_empty_witness :
  findAll false mixedStore 8 None = Fulfilled []
  /\ findAll false boardStore 7 None = Fulfilled [].
Proof.
  split.
  - apply findAll_empty. left. simpl. intros [H | []]. discriminate.
  - apply findAll_empty. right. intros g [].
Defined.

(** X4: the filter [findAll] maps onto a returned group is a row of the
    filter table whose owner is that group (its [entityId] is the group's
    id and its [entityType] is LIST_GROUP); a returned group has no filter
    exactly when the filter table has no such row. *)
Theorem findAll_filter_is_owned :
  forall (fails : bool) (s : Store) (listId : Z)
         (groupBy : option ListGroupOptions.t) (r : list ListGroup.t)
         (g : ListGroup.t),
    findAll fails s listId groupBy = Fulfilled r ->
    In g r ->
    (forall f, ListGroup.filter g = Some f ->
       In f (filters s)
       /\ Filter.entityId f = ListGroup.id g
       /\ Filter.entityType f = FilterEntityTypes.LIST_GROUP)
    /\ (ListGroup.filter g = None <->
        forall f, In f (filters s) ->
          ~ (Filter.entityId f = ListGroup.id g
             /\ Filter.entityType f = FilterEntityTypes.LIST_GROUP)).
Proof.
  intros fails s listId groupBy r g Hf Hin.
  unfold findAll, call in Hf. destruct fails; [discriminate|].
  inversion Hf; subst r. apply queryGroups_In in Hin.
  destruct Hin as [row [_ [_ ->]]]. simpl. split.
  - intros f Hfind. apply find_some in Hfind. destruct Hfind as [Hinf Ho].
    unfold ownedBy in Ho. apply andb_true_iff in Ho. destruct Ho as [Hid Hty].
    split; [exact Hinf|]. split; [now apply Z.eqb_eq|].
    now destruct (Filter.entityType f).
  - split.
    + intros Hnone f Hinf [Hid Hty].
      pose proof (find_none _ _ Hnone f Hinf) as Ho. unfold ownedBy in Ho.
      rewrite Hid, Hty, Z.eqb_refl in Ho. discriminate.
    + intro Hno. apply find_all_false. intros f Hinf.
      unfold ownedBy. destruct (Filter.entityId f =? ListGroup.id row) eqn:E;
        [|reflexivity].
      destruct (Filter.entityType f) eqn:Et; [|reflexivity].
      exfalso. apply (Hno f Hinf). apply Z.eqb_eq in E. now split.
Qed.

Lemma findAll_filter_is_owned_witness :
  exists g,
    nth_error (queryGroups mixedStore 7 None) 0 = Some g
    /\ ListGroup.filter g = None.
Proof.
  eexists. split; [reflexivity|].
  match goal with
  | |- ListGroup.filter ?g = _ =>
      apply (proj2 (findAll_filter_is_owned false mixedStore 7 None
                      (queryGroups mixedStore 7 None) g eq_refl
                      (or_introl eq_refl)))
  end.
  intros f [].
Defined.

(** X5: the groups [findAll] returns for a strategy are those it returns
    without a strategy that have that strategy as their type. *)
Theorem findAll_strategy_restricts :
  forall (s : Store) (listId : Z) (t : ListGroupOptions.t)
         (r rAll : list ListGroup.t),
    findAll false s listId (Some t) = Fulfilled r ->
    findAll false s listId None = Fulfilled rAll ->
    forall g, In g r <-> In g rAll /\ ListGroup.type g = Some t.
Proof.
  intros s listId t r rAll Hr HrAll g.
  unfold findAll, call in Hr, HrAll. inversion Hr; inversion HrAll; subst.
  rewrite !queryGroups_In. split.
  - intros [row [Hin [Hsel ->]]]. apply selected_inv in Hsel.
    destruct Hsel as [Hl [He Ht]]. split; [|simpl; now apply Ht].
    exists row. split; [exact Hin|]. split; [|reflexivity].
    apply selected_inv. repeat split; auto. intros t'; discriminate.
  - intros [[row [Hin [Hsel ->]]] Hty]. simpl in Hty.
    exists row. split; [exact Hin|]. split; [|reflexivity].
    apply selected_inv in Hsel. destruct Hsel as [Hl [He _]].
    apply selected_inv. repeat split; auto. intros t' Ht'. congruence.
Qed.

Lemma findAll_strategy_restricts_witness :
  In (ListGroup.mk 2 "No Assignee" (Some ListGroupOptions.ASSIGNEES) None None
        None None None (Some true) (Some 7) None)
    (queryGroups mixedStore 7 None).
Proof.
  apply (proj1 (findAll_strategy_restricts mixedStore 7
                  ListGroupOptions.ASSIGNEES _ _ eq_refl eq_refl _)).
  simpl. left. reflexivity.
Defined.

(** ** Well-formed stores *)


Lemma NoDup_map_app_fresh (l : list ListGroup.t) (g : ListGroup.t) :
  NoDup (map ListGroup.id l) ->
  (forall row, In row l -> ListGroup.id row < ListGroup.id g) ->
  NoDup (map ListGroup.id (l ++ [g])).
Proof.
  intros Hnd Hlt. rewrite map_app. simpl.
  apply NoDup_app; [exact Hnd | repeat constructor; intros [] |].
  intros a Ha [<- | []]. apply in_map_iff in Ha.
  destruct Ha as [row [He Hrow]]. specialize (Hlt row Hrow). lia.
Qed.

Lemma create_wfStore (s s' : Store) (dto : CreateListGroupDto.t)
  (fails : bool) (p : Promise ListGroup.t) :
  wfStore s -> create fails s dto = (s', p) -> wfStore s'.
Proof.
  intros Hwf. unfold create. destruct fails; intro H; inversion H; subst;
    [exact Hwf|].
  destruct Hwf as [Hu Hb Ho Hf]. constructor; simpl.
  - apply NoDup_map_app_fresh; [exact Hu|]. simpl. exact Hb.
  - intros g Hg. apply in_app_or in Hg. destruct Hg as [Hg | [<- | []]].
    + specialize (Hb g Hg). lia.
    + simpl. lia.
  - intros f Hin Hty. destruct (Ho f Hin Hty) as [g [Hg He]].
    exists g. split; [apply in_or_app; now left | exact He].
  - exact Hf.
Qed.


Lemma boardStore_wf : wfStore boardStore.
Proof.
  constructor; simpl; try constructor; intros ? [].
Qed.

Lemma mixedStore_wf : wfStore mixedStore.
Proof.
  constructor; simpl.
  - repeat constructor; simpl; intuition discriminate.
  - intros g [<- | [<- | [<- | []]]]; simpl; lia.
  - intros f [].
  - constructor.
Qed.


(** ** Update *)

Lemma find_id_overwrite (l : list ListGroup.t) (g' : ListGroup.t) (id : Z) :
  find (fun r => ListGroup.id r =? id)
    (map (fun row => if ListGroup.id row =? ListGroup.id g' then g' else row) l)
  = if id =? ListGroup.id g'
    then match find (fun r => ListGroup.id r =? id) l with
         | Some _ => Some g'
         | None => None
         end
    else find (fun r => ListGroup.id r =? id) l.
Proof.
  destruct (Z.eqb_spec id (ListGroup.id g')) as [-> | Hne].
  - induction l as [|a l IH]; simpl; [reflexivity|].
    destruct (ListGroup.id a =? ListGroup.id g') eqn:Ea.
    + now rewrite Z.eqb_refl.
    + rewrite Ea. exact IH.
  - induction l as [|a l IH]; simpl; [reflexivity|].
    destruct (ListGroup.id a =? ListGroup.id g') eqn:Ea.
    + apply Z.eqb_eq in Ea.
      assert ((ListGroup.id g' =? id) = false) as ->
        by (apply Z.eqb_neq; congruence).
      assert ((ListGroup.id a =? id) = false) as ->
        by (apply Z.eqb_neq; congruence).
      exact IH.
    + destruct (ListGroup.id a =? id); [reflexivity | exact IH].
Qed.

Lemma update_findOne_rows (s s' : Store) (id : Z)
  (patch : UpdateListGroupDto.t) (g' : ListGroup.t) :
  update s id patch = (s', Fulfilled g') ->
  findOne s' id = Fulfilled g'
  /\ (forall id', id' <> id -> findOne s' id' = findOne s id').
Proof.
  intros Hu. unfold update, await, findOne in Hu.
  destruct (repository_findOne s id) as [g|] eqn:Eg; [|discriminate].
  destruct (repository_findOne_id _ _ _ Eg) as [Hin Hid].
  inversion Hu; subst s' g'. clear Hu.
  unfold findOne, repository_findOne in *.
  unfold repository_save. cbn [listGroups]. split.
  - rewrite find_id_overwrite. simpl. rewrite Hid, Z.eqb_refl, Eg.
    reflexivity.
  - intros id' Hne. rewrite find_id_overwrite. simpl. rewrite Hid.
    apply Z.eqb_neq in Hne. now rewrite Hne.
Qed.

(** X7: after [update id patch] has returned a group, [findOne id] returns
    that group, and [findOne] of any other id gives what it gave before. *)
Theorem update_then_findOne :
  forall (s s' : Store) (id : Z) (patch : UpdateListGroupDto.t)
         (g' : ListGroup.t),
    update s id patch = (s', Fulfilled g') ->
    findOne s' id = Fulfilled g'
    /\ (forall id', id' <> id -> findOne s' id' = findOne s id').
Proof.
  intros s s' id patch g'. apply update_findOne_rows.
Qed.

Lemma update_then_findOne_witness :
  exists s' g',
    update mixedStore 3
      (UpdateListGroupDto.mk (Some "Due today") None None None None None None
         None None)
    = (s', Fulfilled g')
    /\ findOne s' 3 = Fulfilled g'
    /\ ListGroup.name g' = "Due today".
Proof.
  eexists. eexists. split; [reflexivity|]. split; [|reflexivity].
  exact (proj1 (update_then_findOne mixedStore _ 3 _ _ eq_refl)).
Defined.

Lemma merge_emptyPatch (g : ListGroup.t) : merge g emptyPatch = g.
Proof. now destruct g. Qed.

Lemma merge_twice (g : ListGroup.t) (patch : UpdateListGroupDto.t) :
  merge (merge g patch) patch = merge g patch.
Proof.
  destruct patch as [n t e et c i o x l]. unfold merge. simpl.
  destruct n, t, e, et, c, i, o, x, l; reflexivity.
Qed.

Lemma NoDup_ids_inj (l : list ListGroup.t) (a b : ListGroup.t) :
  NoDup (map ListGroup.id l) -> In a l -> In b l ->
  ListGroup.id a = ListGroup.id b -> a = b.
Proof.
  induction l as [|x l IH]; intros Hnd Ha Hb He; [contradiction|].
  simpl in Hnd. inversion Hnd as [|? ? Hnotin Hnd']; subst.
  destruct Ha as [<- | Ha], Hb as [<- | Hb]; trivial.
  - exfalso. apply Hnotin. rewrite He. now apply in_map.
  - exfalso. apply Hnotin. rewrite <- He. now apply in_map.
  - now apply IH.
Qed.

(** X8: with unique primary keys, [update] with a patch that carries no
    property returns the row as it is and leaves the store as it was. *)
Theorem update_emptyPatch_identity :
  forall (s : Store) (id : Z) (g : ListGroup.t),
    NoDup (map ListGroup.id (listGroups s)) ->
    repository_findOne s id = Some g ->
    update s id emptyPatch = (s, Fulfilled g).
Proof.
  intros s id g Hnd Hg. destruct (repository_findOne_id _ _ _ Hg) as [Hin Hid].
  unfold update, await, findOne. rewrite Hg, merge_emptyPatch.
  f_equal. unfold repository_save.
  assert (map (fun row => if ListGroup.id row =? ListGroup.id g then g else row)
            (listGroups s) = listGroups s) as ->.
  { rewrite <- (map_id (listGroups s)) at 2. apply map_ext_in.
    intros row Hrow. destruct (ListGroup.id row =? ListGroup.id g) eqn:E;
      [|reflexivity].
    apply Z.eqb_eq in E. symmetry. now apply (NoDup_ids_inj (listGroups s)). }
  now destruct s.
Qed.

Lemma update_emptyPatch_identity_witness :
  fst (update mixedStore 2 emptyPatch) = mixedStore.
Proof.
  rewrite (update_emptyPatch_identity mixedStore 2
             (ListGroup.mk 2 "No Assignee" (Some ListGroupOptions.ASSIGNEES)
                None None None None None (Some true) (Some 7) None)
             (wf_ids_unique _ mixedStore_wf) eq_refl).
  reflexivity.
Defined.

(** X9: applying the same patch a second time changes nothing: the second
    [update] returns the group the first returned and leaves the store as
    the first left it. *)
Theorem update_same_patch_twice :
  forall (s s1 : Store) (id : Z) (patch : UpdateListGroupDto.t)
         (g1 : ListGroup.t),
    update s id patch = (s1, Fulfilled g1) ->
    update s1 id patch = (s1, Fulfilled g1).
Proof.
  intros s s1 id patch g1 Hu.
  destruct (update_findOne_rows _ _ _ _ _ Hu) as [Hf _].
  unfold update, await, findOne in Hu.
  destruct (repository_findOne s id) as [g|] eqn:Eg; [|discriminate].
  inversion Hu; subst s1 g1. clear Hu.
  unfold update, await. rewrite Hf, merge_twice. f_equal.
  unfold repository_save. simpl. f_equal. rewrite map_map.
  apply map_ext. intro row.
  destruct (ListGroup.id row =? ListGroup.id g) eqn:E; simpl.
  - now rewrite Z.eqb_refl.
  - now rewrite E.
Qed.

Lemma update_same_patch_twice_witness :
  let patch := UpdateListGroupDto.mk None None None None (Some (Some "red"))
                 None (Some (Some 9)) None None in
  update (fst (update mixedStore 1 patch)) 1 patch = update mixedStore 1 patch.
Proof.
  intro patch.
  rewrite (update_same_patch_twice mixedStore
             (fst (update mixedStore 1 patch)) 1 patch
             (merge (ListGroup.mk 1 "Todo" (Some ListGroupOptions.LIST_STAGE)
                       (Some 1) (Some ListGroupEntityTypes.LIST_STAGE)
                       (Some "grey") None (Some 1) (Some true) (Some 7) None)
                patch)
             eq_refl).
  reflexivity.
Defined.

(** X10: [update] keeps a store well formed, and it neither adds nor
    removes a row nor changes an id: the ids of the table, in order, are
    what they were. *)
Theorem update_keeps_wfStore :
  forall (s : Store) (id : Z) (patch : UpdateListGroupDto.t),
    wfStore s ->
    wfStore (fst (update s id patch))
    /\ map ListGroup.id (listGroups (fst (update s id patch)))
       = map ListGroup.id (listGroups s).
Proof.
  intros s id patch Hwf. unfold update, await, findOne.
  destruct (repository_findOne s id) as [g|] eqn:Eg; simpl; [|now split].
  assert (map ListGroup.id
            (map (fun row => if ListGroup.id row =? ListGroup.id g
                             then merge g patch else row) (listGroups s))
          = map ListGroup.id (listGroups s)) as Hids.
  { rewrite map_map. apply map_ext. intro row.
    destruct (ListGroup.id row =? ListGroup.id g) eqn:E; [|reflexivity].
    simpl. symmetry. now apply Z.eqb_eq. }
  split; [|exact Hids].
  destruct Hwf as [Hu Hb Ho Hf]. constructor; simpl.
  - now rewrite Hids.
  - intros r Hr. apply (in_map ListGroup.id) in Hr. rewrite Hids in Hr.
    apply in_map_iff in Hr. destruct Hr as [r0 [He Hr0]].
    rewrite <- He. now apply Hb.
  - intros f Hin Hty. destruct (Ho f Hin Hty) as [g0 [Hg0 He]].
    assert (In (ListGroup.id g0) (map ListGroup.id (listGroups s))) as Hi
      by now apply in_map.
    rewrite <- Hids in Hi. apply in_map_iff in Hi.
    destruct Hi as [g1 [He1 Hg1]]. exists g1. split; [exact Hg1|congruence].
  - exact Hf.
Qed.

Lemma update_keeps_wfStore_witness :
  wfStore (fst (update mixedStore 3 emptyPatch)).
Proof.
  exact (proj1 (update_keeps_wfStore mixedStore 3 emptyPatch mixedStore_wf)).
Defined.

(** ** Group generation and the well-formed store *)

Section FanOutInvariant.

Variable F : Faults.
Variable existing : list ListGroup.t.
Variable groupBy : option ListGroupOptions.t.
Variable listId : Z.

Lemma checkIfGroupExists_wfStore (k : nat) (d : CreateListGroupDto.t)
  (s s' : Store) (p : Promise Reconciled) :
  wfStore s ->
  checkIfGroupExists F existing groupBy listId k d s = (s', p) ->
  wfStore s'.
Proof.
  intros Hwf. unfold checkIfGroupExists.
  destruct (find (sameKey d) existing);
    [intro H; inversion H; subst; exact Hwf|].
  destruct (create (groupSaveFails F k) s (creationDto d groupBy listId))
    as [s1 [|g|e]] eqn:Ec;
    try solve [intro H; inversion H; subst; eapply create_wfStore; eauto].
  pose proof (create_wfStore _ _ _ _ _ Hwf Ec) as Hwf1.
  unfold create in Ec. destruct (groupSaveFails F k); [discriminate|].
  inversion Ec; subst s1 g. clear Ec.
  destruct (CreateListGroupDto.filter d) as [fd|];
    [|intro H; inversion H; subst; exact Hwf1].
  unfold filtersService_create.
  destruct (filterSaveFails F k); intro H; inversion H; subst;
    [exact Hwf1|].
  destruct Hwf1 as [Hu Hb Ho Hf]. constructor; simpl in *.
  - exact Hu.
  - exact Hb.
  - intros f Hin Hty. apply in_app_or in Hin.
    destruct Hin as [Hin | [<- | []]]; [now apply Ho|].
    eexists. split; [apply in_or_app; right; left; reflexivity|reflexivity].
  - rewrite filter_app, map_app. simpl.
    apply NoDup_app; [exact Hf | repeat constructor; intros [] |].
    intros a Ha [<- | []]. apply in_map_iff in Ha.
    destruct Ha as [f [He Hfin]]. apply filter_In in Hfin.
    destruct Hfin as [Hfin Hty].
    destruct (wf_filter_owner s Hwf f Hfin Hty) as [g [Hg Hid]].
    pose proof (wf_ids_below s Hwf g Hg). lia.
Qed.

Lemma fanOut_wfStore (cardGroups : list CreateListGroupDto.t) :
  forall (k : nat) (s s' : Store) (ps : list (Promise Reconciled)),
    wfStore s ->
    fanOut F existing groupBy listId k cardGroups s = (s', ps) ->
    wfStore s'.
Proof.
  induction cardGroups as [|d rest IH]; intros k s s' ps Hwf; simpl.
  - intro H; inversion H; subst. exact Hwf.
  - destruct (checkIfGroupExists F existing groupBy listId k d s)
      as [s1 p] eqn:E1.
    destruct (fanOut F existing groupBy listId (S k) rest s1)
      as [s2 ps2] eqn:E2.
    intro H; inversion H; subst.
    eapply IH; [|exact E2]. eapply checkIfGroupExists_wfStore; eauto.
Qed.

End FanOutInvariant.

(** X11: whatever a call of [generateGroups] does (return, throw or never
    settle) and whichever saves fail, it keeps the store well formed: the
    ids stay unique and below the next id, every filter it creates is
    owned by a group of the table, and no group gets two filters. *)
Theorem generateGroups_keeps_wfStore :
  forall (W : World) (F : Faults) (s : Store) (params : GenerateGroupsParams),
    wfStore s -> wfStore (fst (generateGroups W F s params)).
Proof.
  intros W F s params Hwf.
  unfold generateGroups, findAll, call, await, allSettled.
  destruct (initialFetchFails F); [exact Hwf|].
  destruct (desiredGroups W F (p_listId params) (p_groupBy params))
    as [|cg|e]; try exact Hwf.
  destruct (fanOut F (queryGroups s (p_listId params) (p_groupBy params))
              (p_groupBy params) (p_listId params) 0%nat cg s)
    as [s1 ps] eqn:Efan.
  pose proof (fanOut_wfStore _ _ _ _ _ _ _ _ _ Hwf Efan) as Hwf1.
  destruct (existsb isPending ps); [exact Hwf1|].
  destruct (finalFetchFails F); [exact Hwf1|].
  destruct (isListStage (p_groupBy params) && p_ignoreCompleted params);
    [|exact Hwf1].
  destruct (openStageLookupFails F); exact Hwf1.
Qed.

Lemma generateGroups_keeps_wfStore_witness :
  wfStore (fst (generateGroups boardWorld secondSaveFails mixedStore
                  (byStage true))).
Proof.
  exact (generateGroups_keeps_wfStore boardWorld secondSaveFails mixedStore
           (byStage true) mixedStore_wf).
Defined.

(** ** The flag [ignoreCompleted] *)

(** X12: for every strategy other than LIST_STAGE, unset included, the
    flag [ignoreCompleted] changes nothing: the two calls have the same
    outcome and leave the same store. *)
Theorem generateGroups_ignoreCompleted_only_for_stages :
  forall (W : World) (F : Faults) (s : Store) (listId : Z)
         (groupBy : option ListGroupOptions.t),
    groupBy <> Some ListGroupOptions.LIST_STAGE ->
    generateGroups W F s (mkParams listId true groupBy)
    = generateGroups W F s (mkParams listId false groupBy).
Proof.
  intros W F s listId groupBy Hne. unfold generateGroups. simpl.
  assert (isListStage groupBy = false) as ->.
  { destruct groupBy as [[| | |]|]; try reflexivity. congruence. }
  reflexivity.
Qed.

Lemma generateGroups_ignoreCompleted_only_for_stages_witness :
  generateGroups boardWorld noFaults mixedStore
    (mkParams 7 true (Some ListGroupOptions.DUE_DATE))
  = generateGroups boardWorld noFaults mixedStore
      (mkParams 7 false (Some ListGroupOptions.DUE_DATE)).
Proof.
  apply generateGroups_ignoreCompleted_only_for_stages. discriminate.
Defined.

(** X13: the flag [ignoreCompleted] only narrows what is returned: with
    and without it the call leaves the same store, and when both calls
    return, every group returned with the flag is returned without it. *)
Theorem generateGroups_ignoreCompleted_narrows :
  forall (W : World) (F : Faults) (s : Store) (listId : Z)
         (groupBy : option ListGroupOptions.t),
    fst (generateGroups W F s (mkParams listId true groupBy))
    = fst (generateGroups W F s (mkParams listId false groupBy))
    /\ (forall rt rf,
          snd (generateGroups W F s (mkParams listId true groupBy))
          = Fulfilled rt ->
          snd (generateGroups W F s (mkParams listId false groupBy))
          = Fulfilled rf ->
          forall g, In g rt -> In g rf).
Proof.
  intros W F s listId groupBy.
  unfold generateGroups, findAll, call, await, allSettled. simpl.
  destruct (initialFetchFails F); [split; [reflexivity|discriminate]|].
  destruct (desiredGroups W F listId groupBy) as [|cg|e];
    try (split; [reflexivity|discriminate]).
  destruct (fanOut F (queryGroups s listId groupBy) groupBy listId 0%nat cg s)
    as [s1 ps].
  destruct (existsb isPending ps); [split; [reflexivity|discriminate]|].
  destruct (finalFetchFails F); [split; [reflexivity|discriminate]|].
  rewrite andb_false_r.
  destruct (isListStage groupBy); simpl.
  - destruct (openStageLookupFails F); simpl;
      [split; [reflexivity|discriminate]|].
    split; [reflexivity|].
    intros rt rf Ht Hf g Hg. inversion Ht; inversion Hf; subst.
    apply filter_In in Hg. tauto.
  - split; [reflexivity|].
    intros rt rf Ht Hf g Hg. congruence.
Qed.

Lemma generateGroups_ignoreCompleted_narrows_witness :
  exists g,
    nth_error
      (returned boardWorld
         (fst (generateGroups boardWorld noFaults boardStore (byStage true)))
         (byStage true)) 1
    = Some g
    /\ ListGroup.name g = "Doing"
    /\ In g (returned boardWorld
               (fst (generateGroups boardWorld noFaults boardStore
                       (byStage false)))
               (byStage false)).
Proof.
  eexists. split; [reflexivity|]. split; [reflexivity|].
  match goal with
  | |- In ?g _ =>
      apply (proj2 (generateGroups_ignoreCompleted_narrows boardWorld
                      noFaults boardStore 7
                      (Some ListGroupOptions.LIST_STAGE))
               _ _ eq_refl eq_refl g)
  end.
  simpl. right. left. reflexivity.
Defined.

(** ** What a call returns *)

Lemma returned_In (W : World) (s1 : Store) (params : GenerateGroupsParams)
  (g : ListGroup.t) :
  In g (returned W s1 params) ->
  In g (queryGroups s1 (p_listId params) (p_groupBy params)).
Proof.
  unfold returned.
  destruct (isListStage (p_groupBy params) && p_ignoreCompleted params);
    [|trivial].
  intro H. apply filter_In in H. tauto.
Qed.

(** X14: every group a call of [generateGroups] returns is a group of the
    list of the call, the list existing, and, when a strategy is given,
    has that strategy as its type: groups of another list or left by
    another strategy are never returned. *)
Theorem generateGroups_returns_list_and_strategy :
  forall (W : World) (F : Faults) (s s' : Store)
         (params : GenerateGroupsParams) (r : list ListGroup.t)
         (g : ListGroup.t),
    generateGroups W F s params = (s', Fulfilled r) ->
    In g r ->
    ListGroup.listId g = Some (p_listId params)
    /\ In (p_listId params) (lists s)
    /\ (forall t, p_groupBy params = Some t -> ListGroup.type g = Some t)
    /\ exists row, In row (listGroups s') /\ g = withFilter s' row.
Proof.
  intros W F s s' params r g Hrun Hg.
  destruct (generateGroups_returns_inv _ _ _ _ _ _ Hrun)
    as [cg [ps [_ [Hfan [_ ->]]]]].
  destruct (fanOut_store _ _ _ _ _ _ _ _ _ Hfan) as [Hl _].
  apply returned_In, queryGroups_In in Hg.
  destruct Hg as [row [Hrow [Hsel ->]]]. apply selected_inv in Hsel.
  destruct Hsel as [Hlid [He Ht]]. simpl.
  split; [exact Hlid|]. split; [now rewrite <- Hl|]. split; [exact Ht|].
  now exists row.
Qed.

Lemma generateGroups_returns_list_and_strategy_witness :
  exists g,
    nth_error
      (returned boardWorld
         (fst (generateGroups boardWorld noFaults mixedStore (byStage false)))
         (byStage false)) 0
    = Some g
    /\ ListGroup.type g = Some ListGroupOptions.LIST_STAGE.
Proof.
  eexists. split; [reflexivity|].
  match goal with
  | |- ListGroup.type ?g = _ =>
      destruct (generateGroups_returns_list_and_strategy boardWorld noFaults
                  mixedStore
                  (fst (generateGroups boardWorld noFaults mixedStore
                          (byStage false)))
                  (byStage false)
                  (returned boardWorld
                     (fst (generateGroups boardWorld noFaults mixedStore
                             (byStage false)))
                     (byStage false))
                  g eq_refl (or_introl eq_refl)) as [_ [_ [Ht _]]]
  end.
  now apply Ht.
Defined.

Lemma optEqb_eq {A : Type} (eqb : A -> A -> bool) (a b : option A) :
  (forall x y, eqb x y = true -> x = y) -> optEqb eqb a b = true -> a = b.
Proof.
  intros Heq. destruct a, b; simpl; try discriminate; [|reflexivity].
  intro H. f_equal. now apply Heq.
Qed.

Lemma sameKey_eq (d : CreateListGroupDto.t) (g : ListGroup.t) :
  sameKey d g = true ->
  ListGroup.entityId g = CreateListGroupDto.entityId d
  /\ ListGroup.entityType g = CreateListGroupDto.entityType d
  /\ ListGroup.name g = CreateListGroupDto.name d.
Proof.
  unfold sameKey. rewrite !andb_true_iff. intros [[H1 H2] H3].
  split; [|split].
  - apply (optEqb_eq Z.eqb); [|exact H1]. intros x y. apply Z.eqb_eq.
  - apply (optEqb_eq ListGroupEntityTypes.eqb); [|exact H2].
    intros [|] [|]; simpl; congruence.
  - now apply String.eqb_eq.
Qed.

(** X15: when the list exists and a call without [ignoreCompleted]
    returns, the result has, for every descriptor of the strategy, a group
    with the descriptor's source-entity id, source-entity type and name:
    for LIST_STAGE one group per stage of the list, for ASSIGNEES one per
    user and the "No Assignee" group. *)
Theorem generateGroups_returns_every_descriptor :
  forall (W : World) (F : Faults) (s s' : Store) (listId : Z)
         (groupBy : option ListGroupOptions.t) (r : list ListGroup.t)
         (cardGroups : list CreateListGroupDto.t) (d : CreateListGroupDto.t),
    In listId (lists s) ->
    generateGroups W F s (mkParams listId false groupBy) = (s', Fulfilled r) ->
    desiredGroups W F listId groupBy = Fulfilled cardGroups ->
    In d cardGroups ->
    exists g, In g r
              /\ ListGroup.entityId g = CreateListGroupDto.entityId d
              /\ ListGroup.entityType g = CreateListGroupDto.entityType d
              /\ ListGroup.name g = CreateListGroupDto.name d.
Proof.
  intros W F s s' listId groupBy r cardGroups d Hlist Hrun Hcg Hd.
  destruct (matched_after_run W F s s' (mkParams listId false groupBy) r
              cardGroups Hlist Hrun Hcg d Hd) as [g [Hg Hk]].
  destruct (generateGroups_returns_inv _ _ _ _ _ _ Hrun)
    as [_ [_ [_ [_ [_ Hr]]]]].
  unfold returned in Hr. simpl in Hr. rewrite andb_false_r in Hr. subst r.
  exists g. split; [exact Hg|]. now apply sameKey_eq.
Qed.

Lemma generateGroups_returns_every_descriptor_witness :
  exists g,
    In g (returned boardWorld
            (fst (generateGroups boardWorld noFaults mixedStore (byStage false)))
            (byStage false))
    /\ ListGroup.entityId g = Some 3
    /\ ListGroup.entityType g = Some ListGroupEntityTypes.LIST_STAGE
    /\ ListGroup.name g = "Done".
Proof.
  exact (generateGroups_returns_every_descriptor boardWorld noFaults
           mixedStore _ 7 (Some ListGroupOptions.LIST_STAGE) _ _
           (stageGroup (ListStage.mk 3 "Done" "green" 3 true 7))
           (or_introl eq_refl) eq_refl eq_refl
           (or_intror (or_intror (or_introl eq_refl)))).
Defined.

(** ** Creation of the groups and of their filters *)


Lemma find_app_none {A : Type} (p : A -> bool) (l l' : list A) :
  find p l = None -> find p (l ++ l') = find p l'.
Proof.
  induction l as [|a l IH]; simpl; [reflexivity|].
  destruct (p a); [discriminate | exact IH].
Qed.

Section FanOutCreation.

Variable F : Faults.
Variable existing : list ListGroup.t.
Variable groupBy : option ListGroupOptions.t.
Variable listId : Z.

(** A descriptor without a match whose group save does not fail: its row
    is appended with the next id, whatever happens to its filter. *)
Lemma checkIfGroupExists_inserts (k : nat) (d : CreateListGroupDto.t)
  (s : Store) :
  find (sameKey d) existing = None ->
  groupSaveFails F k = false ->
  let s' := fst (checkIfGroupExists F existing groupBy listId k d s) in
  listGroups s'
  = listGroups s
    ++ [newListGroup (nextListGroupId s) (creationDto d groupBy listId)]
  /\ nextListGroupId s' = nextListGroupId s + 1
  /\ lists s' = lists s.
Proof.
  intros Hnone Hsave. unfold checkIfGroupExists, create, filtersService_create.
  rewrite Hnone, Hsave.
  destruct (CreateListGroupDto.filter d); [|simpl; auto].
  destruct (filterSaveFails F k); simpl; auto.
Qed.


(** A descriptor without a match whose promise settles: its row is
    appended with the next id and, when it carries a filter, a filter row
    owned by the new row is appended. *)
Lemma checkIfGroupExists_creates (k : nat) (d : CreateListGroupDto.t)
  (s s' : Store) (p : Promise Reconciled) :
  find (sameKey d) existing = None ->
  checkIfGroupExists F existing groupBy listId k d s = (s', p) ->
  isPending p = false ->
  listGroups s'
  = listGroups s
    ++ [newListGroup (nextListGroupId s) (creationDto d groupBy listId)]
  /\ filters s'
     = filters s
       ++ match CreateListGroupDto.filter d with
          | Some fd => [Filter.mk (nextFilterId s) (nextListGroupId s)
                          FilterEntityTypes.LIST_GROUP (where_ fd)]
          | None => []
          end.
Proof.
  intros Hnone. unfold checkIfGroupExists, create, filtersService_create.
  rewrite Hnone.
  destruct (groupSaveFails F k);
    [intro H; inversion H; subst; discriminate|].
  destruct (CreateListGroupDto.filter d) as [fd|].
  - destruct (filterSaveFails F k); intro H; inversion H; subst;
      [discriminate|]. simpl. auto.
  - intro H; inversion H; subst. simpl. now rewrite app_nil_r.
Qed.

Lemma checkIfGroupExists_new_filters (k : nat) (d : CreateListGroupDto.t)
  (s s' : Store) (p : Promise Reconciled) :
  checkIfGroupExists F existing groupBy listId k d s = (s', p) ->
  nextListGroupId s <= nextListGroupId s'
  /\ exists newFilters,
       filters s' = filters s ++ newFilters
       /\ forall f, In f newFilters -> nextListGroupId s <= Filter.entityId f.
Proof.
  unfold checkIfGroupExists, create, filtersService_create.
  destruct (find (sameKey d) existing).
  - intro H; inversion H; subst. split; [lia|]. exists [].
    rewrite app_nil_r. split; [reflexivity | intros f []].
  - destruct (groupSaveFails F k).
    + intro H; inversion H; subst. split; [lia|]. exists [].
      rewrite app_nil_r. split; [reflexivity | intros f []].
    + destruct (CreateListGroupDto.filter d) as [fd|].
      * destruct (filterSaveFails F k); intro H; inversion H; subst; simpl.
        -- split; [lia|]. exists []. rewrite app_nil_r.
           split; [reflexivity | intros f []].
        -- split; [lia|]. eexists. split; [reflexivity|].
           intros f [<- | []]. simpl. lia.
      * intro H; inversion H; subst; simpl. split; [lia|]. exists [].
        rewrite app_nil_r. split; [reflexivity | intros f []].
Qed.

Lemma fanOut_new_filters (cardGroups : list CreateListGroupDto.t) :
  forall (k : nat) (s s' : Store) (ps : list (Promise Reconciled)),
    fanOut F existing groupBy listId k cardGroups s = (s', ps) ->
    nextListGroupId s <= nextListGroupId s'
    /\ exists newFilters,
         filters s' = filters s ++ newFilters
         /\ forall f, In f newFilters ->
              nextListGroupId s <= Filter.entityId f.
Proof.
  induction cardGroups as [|d rest IH]; intros k s s' ps; simpl.
  - intro H; inversion H; subst. split; [lia|]. exists [].
    rewrite app_nil_r. split; [reflexivity | intros f []].
  - destruct (checkIfGroupExists F existing groupBy listId k d s)
      as [s1 p] eqn:E1.
    destruct (fanOut F existing groupBy listId (S k) rest s1)
      as [s2 ps2] eqn:E2.
    intro H; inversion H; subst.
    destruct (checkIfGroupExists_new_filters _ _ _ _ _ E1)
      as [Hn1 [nf1 [Hf1 Hb1]]].
    destruct (IH _ _ _ _ E2) as [Hn2 [nf2 [Hf2 Hb2]]].
    split; [lia|]. exists (nf1 ++ nf2).
    split; [now rewrite Hf2, Hf1, app_assoc|].
    intros f Hf. apply in_app_or in Hf. destruct Hf as [Hf | Hf].
    + now apply Hb1.
    + specialize (Hb2 f Hf). lia.
Qed.

Lemma fanOut_carries_filter (cardGroups : list CreateListGroupDto.t) :
  forall (k : nat) (s s' : Store) (ps : list (Promise Reconciled)),
    wfStore s ->
    fanOut F existing groupBy listId k cardGroups s = (s', ps) ->
    existsb isPending ps = false ->
    forall d, In d cardGroups -> find (sameKey d) existing = None ->
      exists row,
        In row (listGroups s')
        /\ nextListGroupId s <= ListGroup.id row
        /\ row = newListGroup (ListGroup.id row) (creationDto d groupBy listId)
        /\ match CreateListGroupDto.filter d with
           | Some fd =>
               exists f, find (ownedBy row) (filters s') = Some f
                         /\ Filter.where_ f = where_ fd
           | None => find (ownedBy row) (filters s') = None
           end.
Proof.
  induction cardGroups as [|d0 rest IH]; intros k s s' ps Hwf; simpl;
    [intros _ _ d []|].
  destruct (checkIfGroupExists F existing groupBy listId k d0 s)
    as [s1 p] eqn:E1.
  destruct (fanOut F existing groupBy listId (S k) rest s1)
    as [s2 ps2] eqn:E2.
  intro H; inversion H; subst. simpl. intro Hp.
  apply orb_false_iff in Hp. destruct Hp as [Hp0 Hps].
  pose proof (checkIfGroupExists_wfStore _ _ _ _ _ _ _ _ _ Hwf E1) as Hwf1.
  destruct (checkIfGroupExists_new_filters _ _ _ _ _ E1) as [Hn1 _].
  intros d [<- | Hin] Hnone.
  - destruct (checkIfGroupExists_creates _ _ _ _ _ Hnone E1 Hp0) as [Hg1 Hf1].
    destruct (fanOut_store _ _ _ _ _ _ _ _ _ E2) as [_ [ng [nf' [Hg2 _]]]].
    destruct (fanOut_new_filters _ _ _ _ _ E2) as [_ [nf [Hf2 Hb2]]].
    assert (nextListGroupId s1 = nextListGroupId s + 1) as Hnext.
    { pose proof (checkIfGroupExists_inserts k d0 s Hnone) as Hi.
      unfold checkIfGroupExists, create in E1. rewrite Hnone in E1.
      destruct (groupSaveFails F k) eqn:Es;
        [inversion E1; subst; discriminate|].
      specialize (Hi eq_refl). simpl in Hi.
      unfold checkIfGroupExists, create in Hi. rewrite Hnone, Es in Hi.
      rewrite E1 in Hi. simpl in Hi. tauto. }
    exists (newListGroup (nextListGroupId s) (creationDto d0 groupBy listId)).
    split; [rewrite Hg2, Hg1; apply in_or_app; left; apply in_or_app; right;
            now left|].
    split; [simpl; lia|]. split; [reflexivity|].
    assert (find (ownedBy (newListGroup (nextListGroupId s)
                             (creationDto d0 groupBy listId))) (filters s)
            = None) as Hold.
    { apply find_all_false. intros f Hf. unfold ownedBy. simpl.
      destruct (Filter.entityId f =? nextListGroupId s) eqn:Ee; [|reflexivity].
      destruct (isListGroupFilter f) eqn:Et;
        [|unfold isListGroupFilter in Et; now rewrite Et].
      destruct (wf_filter_owner s Hwf f Hf Et) as [g [Hg Hid]].
      pose proof (wf_ids_below s Hwf g Hg). apply Z.eqb_eq in Ee. lia. }
    assert (find (ownedBy (newListGroup (nextListGroupId s)
                             (creationDto d0 groupBy listId))) nf = None)
      as Hnew.
    { apply find_all_false. intros f Hf. unfold ownedBy. simpl.
      specialize (Hb2 f Hf).
      destruct (Filter.entityId f =? nextListGroupId s) eqn:Ee; [|reflexivity].
      apply Z.eqb_eq in Ee. lia. }
    rewrite Hf2, Hf1.
    destruct (CreateListGroupDto.filter d0) as [fd|].
    + exists (Filter.mk (nextFilterId s) (nextListGroupId s)
                FilterEntityTypes.LIST_GROUP (where_ fd)).
      split; [|reflexivity].
      apply find_app_some. rewrite (find_app_none _ _ _ Hold). simpl.
      unfold ownedBy. simpl. now rewrite Z.eqb_refl.
    + rewrite app_nil_r, (find_app_none _ _ _ Hold). exact Hnew.
  - destruct (IH _ _ _ _ Hwf1 E2 Hps d Hin Hnone) as [row [Hr [Hb Hrest]]].
    exists row. split; [exact Hr|]. split; [lia | exact Hrest].
Qed.

End FanOutCreation.

Lemma generateGroups_store_is_fanOut (W : World) (F : Faults) (s : Store)
  (params : GenerateGroupsParams) (cg : list CreateListGroupDto.t) :
  initialFetchFails F = false ->
  desiredGroups W F (p_listId params) (p_groupBy params) = Fulfilled cg ->
  fst (generateGroups W F s params)
  = fst (fanOut F (queryGroups s (p_listId params) (p_groupBy params))
           (p_groupBy params) (p_listId params) 0%nat cg s).
Proof.
  intros Hinit Hcg.
  unfold generateGroups, findAll, call, await, allSettled.
  rewrite Hinit, Hcg.
  destruct (fanOut F (queryGroups s (p_listId params) (p_groupBy params))
              (p_groupBy params) (p_listId params) 0%nat cg s) as [s1 ps].
  destruct (existsb isPending ps); [reflexivity|].
  destruct (finalFetchFails F); [reflexivity|].
  destruct (isListStage (p_groupBy params) && p_ignoreCompleted params);
    [|reflexivity].
  destruct (openStageLookupFails F); reflexivity.
Qed.




(** X17: in a well-formed store whose list exists, when a call without
    [ignoreCompleted] returns, each descriptor that had no match in the
    initial fetch has in the result a group with the descriptor's key,
    created by this call, that carries the descriptor's filter: its
    [filter] is a filter row owned by it with the descriptor's [where],
    and it has no filter when the descriptor has none. *)
Theorem generateGroups_created_group_carries_filter :
  forall (W : World) (F : Faults) (s s' : Store) (listId : Z)
         (groupBy : option ListGroupOptions.t) (r : list ListGroup.t)
         (cardGroups : list CreateListGroupDto.t) (d : CreateListGroupDto.t),
    wfStore s ->
    In listId (lists s) ->
    generateGroups W F s (mkParams listId false groupBy) = (s', Fulfilled r) ->
    desiredGroups W F listId groupBy = Fulfilled cardGroups ->
    In d cardGroups ->
    (forall g, In g (queryGroups s listId groupBy) -> sameKey d g = false) ->
    exists g,
      In g r
      /\ nextListGroupId s <= ListGroup.id g
      /\ ListGroup.entityId g = CreateListGroupDto.entityId d
      /\ ListGroup.entityType g = CreateListGroupDto.entityType d
      /\ ListGroup.name g = CreateListGroupDto.name d
      /\ match CreateListGroupDto.filter d with
         | Some fd =>
             exists f, ListGroup.filter g = Some f
                       /\ Filter.where_ f = where_ fd
                       /\ Filter.entityId f = ListGroup.id g
                       /\ In f (filters s')
         | None => ListGroup.filter g = None
         end.
Proof.
  intros W F s s' listId groupBy r cardGroups d Hwf Hlist Hrun Hcg Hd Hno.
  destruct (generateGroups_returns_inv _ _ _ _ _ _ Hrun)
    as [cg [ps [Hcg' [Hfan [Hpend Hr]]]]].
  simpl in Hcg', Hfan. assert (cg = cardGroups) by congruence. subst cg.
  unfold returned in Hr. simpl in Hr. rewrite andb_false_r in Hr. subst r.
  assert (find (sameKey d) (queryGroups s listId groupBy) = None) as Hnone.
  { apply find_all_false. exact Hno. }
  destruct (fanOut_carries_filter _ _ _ _ _ _ _ _ _ Hwf Hfan Hpend d Hd Hnone)
    as [row [Hrow [Hid [Hrw Hfil]]]].
  destruct (fanOut_store _ _ _ _ _ _ _ _ _ Hfan) as [Hl _].
  exists (withFilter s' row). split.
  { apply queryGroups_In. exists row. split; [exact Hrow|].
    split; [|reflexivity]. rewrite Hrw. apply selected_true.
    - now rewrite Hl.
    - reflexivity.
    - now left. }
  simpl. split; [exact Hid|].
  split; [now rewrite Hrw|]. split; [now rewrite Hrw|].
  split; [now rewrite Hrw|].
  destruct (CreateListGroupDto.filter d) as [fd|]; [|exact Hfil].
  destruct Hfil as [f [Hf Hw]]. exists f. split; [exact Hf|].
  split; [exact Hw|]. apply find_some in Hf. destruct Hf as [Hin Ho].
  unfold ownedBy in Ho. apply andb_true_iff in Ho. destruct Ho as [Ho _].
  split; [now apply Z.eqb_eq | exact Hin].
Qed.

Lemma generateGroups_created_group_carries_filter_witness :
  exists g f,
    In g (returned boardWorld
            (fst (generateGroups boardWorld noFaults mixedStore (byStage false)))
            (byStage false))
    /\ ListGroup.name g = "Doing"
    /\ ListGroup.filter g = Some f
    /\ Filter.where_ f
       = mkQueryFilter [mkFieldFilter "cardLists.listStageId" "eq" (VNumber 2)].
Proof.
  destruct (generateGroups_created_group_carries_filter boardWorld noFaults
              mixedStore _ 7 (Some ListGroupOptions.LIST_STAGE) _ _
              (stageGroup (ListStage.mk 2 "Doing" "blue" 2 false 7))
              mixedStore_wf (or_introl eq_refl) eq_refl eq_refl
              (or_intror (or_introl eq_refl)))
    as [g [Hg [_ [_ [_ [Hn [f [Hf [Hw _]]]]]]]]].
  { intros g [<- | []]. reflexivity. }
  exists g, f. repeat split; assumption.
Defined.

(** ** Failures around the fan-out *)

(** X18: when the initial fetch rejects, or the stage lookup of the
    LIST_STAGE strategy, or the user lookup of the ASSIGNEES strategy, the
    call throws that failure and has created nothing: the store is as it
    was. *)
Theorem generateGroups_fails_before_creating :
  forall (W : World) (F : Faults) (s : Store) (params : GenerateGroupsParams),
    initialFetchFails F = true
    \/ (p_groupBy params = Some ListGroupOptions.LIST_STAGE
        /\ stageLookupFails F = true)
    \/ (p_groupBy params = Some ListGroupOptions.ASSIGNEES
        /\ userLookupFails F = true) ->
    generateGroups W F s params = (s, Rejected PersistenceError).
Proof.
  intros W F s params H.
  unfold generateGroups, findAll, call, await.
  destruct (initialFetchFails F); [reflexivity|].
  destruct H as [H | [[Hg Hf] | [Hg Hf]]]; [discriminate| |];
    rewrite Hg; unfold desiredGroups, call; now rewrite Hf.
Qed.

Lemma generateGroups_fails_before_creating_witness :
  generateGroups boardWorld
    (mkFaults false true false (fun _ => false) (fun _ => false) false false)
    boardStore (byStage false)
  = (boardStore, Rejected PersistenceError).
Proof.
  apply generateGroups_fails_before_creating.
  right. left. split; reflexivity.
Defined.

Lemma fanOut_same_faults (F F' : Faults) (existing : list ListGroup.t)
  (groupBy : option ListGroupOptions.t) (listId : Z)
  (cardGroups : list CreateListGroupDto.t) :
  (forall k, groupSaveFails F k = groupSaveFails F' k) ->
  (forall k, filterSaveFails F k = filterSaveFails F' k) ->
  forall (k : nat) (s : Store),
    fanOut F existing groupBy listId k cardGroups s
    = fanOut F' existing groupBy listId k cardGroups s.
Proof.
  intros Hg Hf. induction cardGroups as [|d rest IH]; intros k s; simpl;
    [reflexivity|].
  assert (checkIfGroupExists F existing groupBy listId k d s
          = checkIfGroupExists F' existing groupBy listId k d s) as ->.
  { unfold checkIfGroupExists. now rewrite (Hg k), (Hf k). }
  destruct (checkIfGroupExists F' existing groupBy listId k d s) as [s1 p].
  now rewrite IH.
Qed.

(** X19: nothing is rolled back: the store a call leaves does not depend
    on whether the final fetch or the lookup of the non-completed stages
    fails; rows created by the fan-out stay when the call then throws. *)
Theorem generateGroups_no_rollback :
  forall (W : World) (F F' : Faults) (s : Store)
         (params : GenerateGroupsParams),
    sameCreationFaults F F' ->
    fst (generateGroups W F s params) = fst (generateGroups W F' s params).
Proof.
  intros W F F' s params [Hi [Hs [Hu [Hg Hf]]]].
  unfold generateGroups, findAll, call, await, allSettled.
  rewrite <- Hi. destruct (initialFetchFails F); [reflexivity|].
  assert (desiredGroups W F' (p_listId params) (p_groupBy params)
          = desiredGroups W F (p_listId params) (p_groupBy params)) as ->.
  { unfold desiredGroups. now rewrite Hs, Hu. }
  destruct (desiredGroups W F (p_listId params) (p_groupBy params))
    as [|cg|e]; try reflexivity.
  rewrite <- (fanOut_same_faults F F' _ _ _ _ Hg Hf).
  destruct (fanOut F (queryGroups s (p_listId params) (p_groupBy params))
              (p_groupBy params) (p_listId params) 0%nat cg s) as [s1 ps].
  destruct (existsb isPending ps); [reflexivity|].
  destruct (finalFetchFails F), (finalFetchFails F');
    destruct (isListStage (p_groupBy params) && p_ignoreCompleted params);
    try reflexivity;
    destruct (openStageLookupFails F), (openStageLookupFails F');
    reflexivity.
Qed.

Lemma generateGroups_no_rollback_witness :
  let finalFails :=
    mkFaults false false false (fun _ => false) (fun _ => false) true false in
  snd (generateGroups boardWorld finalFails boardStore (byStage false))
  = Rejected PersistenceError
  /\ map ListGroup.name
       (listGroups
          (fst (generateGroups boardWorld finalFails boardStore
                  (byStage false))))
     = ["Todo"; "Doing"; "Done"].
Proof.
  intro finalFails. split; [reflexivity|].
  rewrite (generateGroups_no_rollback boardWorld finalFails noFaults
             boardStore (byStage false)).
  - reflexivity.
  - repeat split.
Defined.

(** ** The strategy ALL and the unset strategy *)

(** X20: for a list that exists, after a call with the strategy ALL has
    returned, a call with an unset strategy creates nothing, whatever
    fails in it: the "All" group of type ALL matches its descriptor. *)
Theorem generateGroups_unset_after_ALL :
  forall (W : World) (F F2 : Faults) (s s1 : Store) (listId : Z)
         (ignoreCompleted ignoreCompleted2 : bool) (r : list ListGroup.t),
    In listId (lists s) ->
    generateGroups W F s
      (mkParams listId ignoreCompleted (Some ListGroupOptions.ALL))
    = (s1, Fulfilled r) ->
    fst (generateGroups W F2 s1 (mkParams listId ignoreCompleted2 None)) = s1.
Proof.
  intros W F F2 s s1 listId ic ic2 r Hlist Hrun.
  destruct (matched_after_run W F s s1
              (mkParams listId ic (Some ListGroupOptions.ALL)) r
              [DEFAULT_GROUP] Hlist Hrun
              eq_refl DEFAULT_GROUP (or_introl eq_refl)) as [g [Hg Hk]].
  simpl in Hg.
  assert (forall d, In d [DEFAULT_GROUP] ->
            exists g', In g' (queryGroups s1 listId None)
                       /\ sameKey d g' = true) as Hall.
  { intros d [<- | []]. exists g. split; [|exact Hk].
    apply queryGroups_In in Hg. destruct Hg as [row [Hrow [Hsel ->]]].
    apply queryGroups_In. exists row. split; [exact Hrow|].
    split; [|reflexivity]. apply selected_inv in Hsel.
    destruct Hsel as [Hl [He _]]. apply selected_inv.
    repeat split; auto. intros t; discriminate. }
  destruct (fanOut_all_matched F2 _ None listId [DEFAULT_GROUP] Hall 0%nat s1)
    as [ps2 [Hfan2 Hpend2]].
  unfold generateGroups, findAll, call, await, allSettled.
  cbn [p_listId p_groupBy p_ignoreCompleted desiredGroups].
  destruct (initialFetchFails F2); [reflexivity|].
  rewrite Hfan2, Hpend2.
  destruct (finalFetchFails F2); reflexivity.
Qed.

Lemma generateGroups_unset_after_ALL_witness :
  let s1 := fst (generateGroups boardWorld noFaults mixedStore
                   (mkParams 7 false (Some ListGroupOptions.ALL))) in
  List.length (listGroups s1) = 4%nat
  /\ fst (generateGroups boardWorld noFaults s1 (mkParams 7 false None)) = s1.
Proof.
  intro s1. split; [reflexivity|].
  apply (generateGroups_unset_after_ALL boardWorld noFaults noFaults
           mixedStore s1 7 false false
           (returned boardWorld s1
              (mkParams 7 false (Some ListGroupOptions.ALL)))
           (or_introl eq_refl) eq_refl).
Defined.

(** X21: the other way round a second "All" group appears: when the list
    has no group of type ALL, after a call with an unset strategy, which
    stores its "All" group with an unset type, a call with the strategy
    ALL whose save does not fail appends an "All" group of type ALL. *)
Theorem generateGroups_ALL_after_unset :
  forall (W : World) (F F2 : Faults) (s : Store) (listId : Z)
         (ignoreCompleted ignoreCompleted2 : bool),
    (forall g, In g (listGroups s) -> ListGroup.listId g = Some listId ->
       ListGroup.type g <> Some ListGroupOptions.ALL) ->
    initialFetchFails F2 = false ->
    groupSaveFails F2 0%nat = false ->
    let s1 := fst (generateGroups W F s
                     (mkParams listId ignoreCompleted None)) in
    listGroups
      (fst (generateGroups W F2 s1
              (mkParams listId ignoreCompleted2 (Some ListGroupOptions.ALL))))
    = listGroups s1
      ++ [ ListGroup.mk (nextListGroupId s1) "All"
             (Some ListGroupOptions.ALL) None None None None None
             (Some true) (Some listId) None ].
Proof.
  intros W F F2 s listId ic ic2 Hno Hinit Hsave s1.
  assert (queryGroups s1 listId (Some ListGroupOptions.ALL) = []) as Hq.
  { destruct (queryGroups s1 listId (Some ListGroupOptions.ALL))
      as [|g rest] eqn:E; [reflexivity|].
    assert (In g (queryGroups s1 listId (Some ListGroupOptions.ALL))) as Hin
      by (rewrite E; now left).
    apply queryGroups_In in Hin. destruct Hin as [row [Hrow [Hsel _]]].
    apply selected_inv in Hsel. destruct Hsel as [Hl [_ Ht]].
    specialize (Ht _ eq_refl).
    destruct (generateGroups_store W F s (mkParams listId ic None))
      as [_ [ng [nf [Hg [_ Hng]]]]].
    fold s1 in Hg. rewrite Hg in Hrow. apply in_app_or in Hrow.
    destruct Hrow as [Hrow | Hrow].
    - now elim (Hno row Hrow Hl).
    - rewrite Forall_forall in Hng. destruct (Hng row Hrow) as [_ Hty].
      simpl in Hty. congruence. }
  rewrite (generateGroups_store_is_fanOut W F2 s1
             (mkParams listId ic2 (Some ListGroupOptions.ALL))
             [DEFAULT_GROUP] Hinit eq_refl).
  simpl. rewrite Hq. unfold checkIfGroupExists, create. simpl.
  rewrite Hsave. reflexivity.
Qed.

Lemma generateGroups_ALL_after_unset_witness :
  map (fun g => (ListGroup.name g, ListGroup.type g))
    (listGroups
       (fst (generateGroups boardWorld noFaults
               (fst (generateGroups boardWorld noFaults boardStore
                       (mkParams 7 false None)))
               (mkParams 7 false (Some ListGroupOptions.ALL)))))
  = [("All", None); ("All", Some ListGroupOptions.ALL)].
Proof.
  rewrite (generateGroups_ALL_after_unset boardWorld noFaults noFaults
             boardStore 7 false false (fun g (H : In g []) => match H with end)
             eq_refl eq_refl).
  reflexivity.
Defined.

(** ** Keys of the descriptors *)

Lemma distinct_entity_distinct_key (l : list CreateListGroupDto.t) :
  NoDup (map CreateListGroupDto.entityId l) ->
  forall (i j : nat) (d1 d2 : CreateListGroupDto.t) (g : ListGroup.t),
    nth_error l i = Some d1 -> nth_error l j = Some d2 -> i <> j ->
    sameKey d1 g = true -> sameKey d2 g = false.
Proof.
  intros Hnd i j d1 d2 g H1 H2 Hij Hk1.
  destruct (sameKey d2 g) eqn:Hk2; [|reflexivity].
  exfalso. apply Hij.
  destruct (sameKey_eq _ _ Hk1) as [He1 _].
  destruct (sameKey_eq _ _ Hk2) as [He2 _].
  apply (proj1 (NoDup_nth_error (map CreateListGroupDto.entityId l)) Hnd).
  - rewrite length_map. apply nth_error_Some. now rewrite H1.
  - rewrite !nth_error_map, H1, H2. simpl. congruence.
Qed.

Lemma NoDup_map_Some {A : Type} (l : list A) :
  NoDup l -> NoDup (map Some l).
Proof.
  induction 1 as [|x l Hx Hnd IH]; simpl; constructor; [|exact IH].
  intro Hin. apply in_map_iff in Hin. destruct Hin as [y [He Hy]].
  inversion He; subst. contradiction.
Qed.

(** X22: when the stages have distinct ids, no group matches the
    descriptors of two of them: two stages get separate groups even when
    they have the same name. *)
Theorem generateGroupsByListStage_distinct_keys :
  forall (stages : list ListStage.t) (i j : nat)
         (d1 d2 : CreateListGroupDto.t) (g : ListGroup.t),
    NoDup (map ListStage.id stages) ->
    nth_error (generateGroupsByListStage stages) i = Some d1 ->
    nth_error (generateGroupsByListStage stages) j = Some d2 ->
    i <> j ->
    sameKey d1 g = true -> sameKey d2 g = false.
Proof.
  intros stages i j d1 d2 g Hnd. apply distinct_entity_distinct_key.
  unfold generateGroupsByListStage. rewrite map_map. simpl.
  rewrite <- (map_map ListStage.id Some). now apply NoDup_map_Some.
Qed.

Lemma generateGroupsByListStage_distinct_keys_witness :
  sameKey (stageGroup (ListStage.mk 2 "Review" "green" 2 true 7))
    (newListGroup 1
       (creationDto (stageGroup (ListStage.mk 1 "Review" "grey" 1 false 7))
          (Some ListGroupOptions.LIST_STAGE) 7))
  = false.
Proof.
  apply (generateGroupsByListStage_distinct_keys (stageTable reviewWorld)
           0 1 (stageGroup (ListStage.mk 1 "Review" "grey" 1 false 7))).
  - simpl. repeat constructor; simpl; intuition discriminate.
  - reflexivity.
  - reflexivity.
  - discriminate.
  - reflexivity.
Defined.

Lemma mapWithIndex_userGroup_entityId (users : list User.t) :
  forall from,
    map CreateListGroupDto.entityId (mapWithIndex userGroup from users)
    = map Some (map User.id users).
Proof.
  induction users as [|u rest IH]; intro from; simpl; [reflexivity|].
  now rewrite IH.
Qed.

(** X23: when the users have distinct ids, no group matches two
    descriptors of the assignee strategy, the sentinel included: users of
    the same name get separate groups, and the group of a user named
    "No Assignee" is not taken for the sentinel's. *)
Theorem generateGroupsByAssignees_distinct_keys :
  forall (users : list User.t) (i j : nat)
         (d1 d2 : CreateListGroupDto.t) (g : ListGroup.t),
    NoDup (map User.id users) ->
    nth_error (generateGroupsByAssignees users) i = Some d1 ->
    nth_error (generateGroupsByAssignees users) j = Some d2 ->
    i <> j ->
    sameKey d1 g = true -> sameKey d2 g = false.
Proof.
  intros users i j d1 d2 g Hnd. apply distinct_entity_distinct_key.
  unfold generateGroupsByAssignees.
  rewrite map_app, mapWithIndex_userGroup_entityId. simpl.
  apply NoDup_app; [now apply NoDup_map_Some | repeat constructor; intros [] |].
  intros a Ha [<- | []]. apply in_map_iff in Ha.
  destruct Ha as [x [He _]]. discriminate.
Qed.

Lemma generateGroupsByAssignees_distinct_keys_witness :
  sameKey NO_ASSIGNEE
    (newListGroup 1
       (creationDto (userGroup (User.mk 5 "No" "Assignee" None) 0)
          (Some ListGroupOptions.ASSIGNEES) 7))
  = false.
Proof.
  apply (generateGroupsByAssignees_distinct_keys
           [User.mk 5 "No" "Assignee" None] 0 1
           (userGroup (User.mk 5 "No" "Assignee" None) 0)).
  - simpl. repeat constructor. intros [].
  - reflexivity.
  - reflexivity.
  - discriminate.
  - reflexivity.
Defined.

(** ** When a call settles *)

Lemma fanOut_noFaults_settles (existing : list ListGroup.t)
  (groupBy : option ListGroupOptions.t) (listId : Z)
  (cardGroups : list CreateListGroupDto.t) :
  forall (k : nat) (s : Store),
    existsb isPending
      (snd (fanOut noFaults existing groupBy listId k cardGroups s)) = false.
Proof.
  induction cardGroups as [|d rest IH]; intros k s; simpl; [reflexivity|].
  destruct (checkIfGroupExists noFaults existing groupBy listId k d s)
    as [s1 p] eqn:E1.
  specialize (IH (S k) s1).
  destruct (fanOut noFaults existing groupBy listId (S k) rest s1)
    as [s2 ps2].
  simpl in *. rewrite IH, orb_false_r.
  unfold checkIfGroupExists, create, filtersService_create in E1.
  simpl in E1.
  destruct (find (sameKey d) existing); [now inversion E1|].
  destruct (CreateListGroupDto.filter d); now inversion E1.
Qed.

(** X24: when no fetch, lookup or save fails, every call returns, and it
    returns what the final fetch on the store it leaves gives, restricted
    to the non-completed stages' names when that is asked for. *)
Theorem generateGroups_returns_without_faults :
  forall (W : World) (s : Store) (params : GenerateGroupsParams),
    generateGroups W noFaults s params
    = (fst (generateGroups W noFaults s params),
       Fulfilled
         (returned W (fst (generateGroups W noFaults s params)) params)).
Proof.
  intros W s params.
  unfold generateGroups, returned, findAll, call, await, allSettled. simpl.
  assert (exists cg,
            desiredGroups W noFaults (p_listId params) (p_groupBy params)
            = Fulfilled cg) as [cg ->].
  { unfold desiredGroups, call. simpl.
    destruct (p_groupBy params) as [[| | |]|]; eexists; reflexivity. }
  pose proof (fanOut_noFaults_settles
                (queryGroups s (p_listId params) (p_groupBy params))
                (p_groupBy params) (p_listId params) cg 0%nat s) as Hp.
  destruct (fanOut noFaults
              (queryGroups s (p_listId params) (p_groupBy params))
              (p_groupBy params) (p_listId params) 0%nat cg s) as [s1 ps].
  simpl in Hp. rewrite Hp.
  now destruct (isListStage (p_groupBy params) && p_ignoreCompleted params).
Qed.




(** ** The card view *)

(** X26: [updateFieldValue] sets the one key [field.id] of the card's data
    and nothing else: reading any other key, and every other property of
    the card, gives what it gave.  The value stored is [v], except that an
    empty array and an array whose first element is falsy are stored as
    [undefined]: an array that is stored is never empty and starts with a
    truthy element. *)
Theorem updateFieldValue_sets_one_field :
  forall (JsValue : Type) (truthy : JsValue -> bool) (undefined : JsValue)
         (CardRest : Type) (cardCopy : Card JsValue CardRest) (fieldId : Z)
         (v : FieldValue JsValue),
    card_data (updateFieldValue truthy undefined cardCopy fieldId v) fieldId
    = storedFieldValue truthy undefined v
    /\ (forall id, id <> fieldId ->
          card_data (updateFieldValue truthy undefined cardCopy fieldId v) id
          = card_data cardCopy id)
    /\ card_rest (updateFieldValue truthy undefined cardCopy fieldId v)
       = card_rest cardCopy
    /\ (forall items,
          card_data (updateFieldValue truthy undefined cardCopy fieldId v)
            fieldId
          = FieldArray items ->
          v = FieldArray items
          /\ exists first rest, items = first :: rest /\ truthy first = true)
    /\ (v = FieldArray []
        \/ (exists first rest,
              v = FieldArray (first :: rest) /\ truthy first = false) ->
        card_data (updateFieldValue truthy undefined cardCopy fieldId v)
          fieldId
        = FieldOther undefined)
    /\ (forall x,
          v = FieldOther x ->
          card_data (updateFieldValue truthy undefined cardCopy fieldId v)
            fieldId
          = FieldOther x).
Proof.
  intros JsValue truthy undefined CardRest cardCopy fieldId v. simpl.
  rewrite Z.eqb_refl. split; [reflexivity|]. split.
  { intros id Hne. apply Z.eqb_neq in Hne. now rewrite Hne. }
  split; [reflexivity|]. split; [|split].
  - intros items. destruct v as [[|first rest]|x]; simpl; try discriminate.
    destruct (truthy first) eqn:Et; [|discriminate].
    intro H. inversion H; subst. split; [reflexivity|].
    now exists first, rest.
  - intros [-> | [first [rest [-> Hf]]]]; simpl; [reflexivity|].
    now rewrite Hf.
  - intros x ->. reflexivity.
Qed.

Lemma updateFieldValue_sets_one_field_witness :
  let truthy := fun o : option string =>
                  match o with
                  | Some s => negb (String.eqb s "")
                  | None => false
                  end in
  let card := mkCard (fun _ : Z => FieldOther (Some "x")) tt in
  card_data (updateFieldValue truthy None card 4 (FieldArray [None])) 4
  = FieldOther None
  /\ card_data (updateFieldValue truthy None card 4 (FieldArray [None])) 5
     = FieldOther (Some "x").
Proof.
  intros truthy card. split.
  - apply (proj1 (proj2 (proj2 (proj2 (proj2
      (updateFieldValue_sets_one_field (option string) truthy None unit
         card 4 (FieldArray [None]))))))).
    right. exists None, []. split; reflexivity.
  - apply (proj1 (proj2
      (updateFieldValue_sets_one_field (option string) truthy None unit
         card 4 (FieldArray [None])))).
    discriminate.
Defined.
